(** * SentimentAnalysis front end: recorder hook, upload hook, progress bar
      and emotion tables

    A shallow embedding of the JavaScript sources

    - [frontend/src/utils/emotions.js]                (module [Emotions])
    - the [useFileUpload] hook                        (module [FileUpload])
    - the [useAudioRecorder] hook                     (module [AudioRecorder])
    - [frontend/src/components/AudioComponents.jsx]   (module [AudioComponents])

    followed by the results on each of them (modules [EmotionsFacts],
    [FileUploadFacts] and [FileUploadMore], [AudioRecorderFacts] and
    [AudioRecorderMore], [AudioComponentsFacts] and [AudioComponentsMore]).

    JavaScript numbers are IEEE-754 binary64 values and are modelled by the
    primitive floats of the Standard Library; byte counts, which are
    integers, are modelled by [Z].  JavaScript objects used as look-up tables
    are finite maps together with the properties every object literal
    inherits from [Object.prototype]. *)

From Stdlib Require Import ZArith List String Ascii Bool Floats Lia DecimalString.
From stdpp Require Import base option list gmap strings fin_maps.
Import ListNotations.

Local Open Scope string_scope.
Local Open Scope list_scope.

(* ===================================================================== *)
(** * JavaScript values and property lookup                               *)
(* ===================================================================== *)

Module JS.

(** The values the modelled expressions can evaluate to.  Functions and
    objects of the standard library are identified by name. *)
Inductive Value :=
| Undefined
| Str (s : string)
| Func (name : string)
| Object (name : string).

(** [ToBoolean]: the empty string and [undefined] are falsy, functions and
    objects are truthy. *)
Definition truthy (v : Value) : bool :=
  match v with
  | Undefined => false
  | Str s => negb (String.eqb s "")
  | Func _ | Object _ => true
  end.

(** [a || b] *)
Definition or (a b : Value) : Value := if truthy a then a else b.

(** The properties an object literal inherits: those of
    [Object.prototype] (ECMAScript 2023, 20.1.3 and annex B.2.2). *)
Definition Object_prototype : gmap string Value :=
  list_to_map
    [ ("constructor", Func "Object");
      ("hasOwnProperty", Func "hasOwnProperty");
      ("isPrototypeOf", Func "isPrototypeOf");
      ("propertyIsEnumerable", Func "propertyIsEnumerable");
      ("toLocaleString", Func "toLocaleString");
      ("toString", Func "toString");
      ("valueOf", Func "valueOf");
      ("__proto__", Object "Object.prototype");
      ("__defineGetter__", Func "__defineGetter__");
      ("__defineSetter__", Func "__defineSetter__");
      ("__lookupGetter__", Func "__lookupGetter__");
      ("__lookupSetter__", Func "__lookupSetter__") ].

(** [o[k]] for an object literal [o] with own string-valued properties
    [own]: the own property if there is one, else the inherited one, else
    [undefined]. *)
Definition get (own : gmap string string) (k : string) : Value :=
  match own !! k with
  | Some s => Str s
  | None =>
      match Object_prototype !! k with
      | Some v => v
      | None => Undefined
      end
  end.

End JS.

(* ===================================================================== *)
(** * utils/emotions.js                                                   *)
(* ===================================================================== *)

Module Emotions.

(** The object literal [emotionMap] of [getEmotionDisplayName]. *)
Definition emotionMap : gmap string string :=
  list_to_map
    [ ("ANG", "Angry"); ("CAL", "Calm"); ("DIS", "Disgusted");
      ("FEA", "Fearful"); ("HAP", "Happy"); ("NEU", "Neutral");
      ("SAD", "Sad"); ("SUR", "Surprised") ].

(** [emotionMap[emotionCode] || emotionCode] *)
Definition getEmotionDisplayName (emotionCode : string) : JS.Value :=
  JS.or (JS.get emotionMap emotionCode) (JS.Str emotionCode).

(** The object literal [emojiMap] of [getEmotionEmoji]; the emoji are kept
    as their UTF-8 bytes. *)
Definition emojiMap : gmap string string :=
  list_to_map
    [ ("ANG", "😠"); ("CAL", "😌"); ("DIS", "🤢"); ("FEA", "😨");
      ("HAP", "😊"); ("NEU", "😐"); ("SAD", "😢"); ("SUR", "😲") ].

(** [emojiMap[emotionCode] || '😐'] *)
Definition getEmotionEmoji (emotionCode : string) : JS.Value :=
  JS.or (JS.get emojiMap emotionCode) (JS.Str "😐").

Definition known_codes : list string :=
  ["ANG"; "CAL"; "DIS"; "FEA"; "HAP"; "NEU"; "SAD"; "SUR"].

(** An entry of [stylingMap]. *)
Record Styling := mkStyling {
  color : string;
  gradient : string;
  bgColor : string;
  textColor : string;
  borderColor : string
}.

(** The object literal [stylingMap] of [getEmotionStyling]. *)
Definition stylingMap : gmap string Styling :=
  list_to_map
    [ ("ANG", mkStyling "red" "from-red-500 to-red-700" "bg-red-50"
                "text-red-700" "border-red-200");
      ("CAL", mkStyling "blue" "from-blue-500 to-blue-700" "bg-blue-50"
                "text-blue-700" "border-blue-200");
      ("DIS", mkStyling "green" "from-green-600 to-green-800" "bg-green-50"
                "text-green-700" "border-green-200");
      ("FEA", mkStyling "purple" "from-purple-500 to-purple-700" "bg-purple-50"
                "text-purple-700" "border-purple-200");
      ("HAP", mkStyling "yellow" "from-yellow-400 to-orange-500" "bg-yellow-50"
                "text-orange-700" "border-yellow-200");
      ("NEU", mkStyling "gray" "from-gray-500 to-gray-700" "bg-gray-50"
                "text-gray-700" "border-gray-200");
      ("SAD", mkStyling "indigo" "from-indigo-500 to-indigo-700" "bg-indigo-50"
                "text-indigo-700" "border-indigo-200");
      ("SUR", mkStyling "pink" "from-pink-500 to-pink-700" "bg-pink-50"
                "text-pink-700" "border-pink-200") ].

(** What [getEmotionStyling] can return: an entry of the table, an
    inherited property of the table object, or [undefined]. *)
Inductive StylingResult :=
| styling (s : Styling)
| inherited (v : JS.Value)
| noStyling.

(** [stylingMap[k]] *)
Definition getStyling (k : string) : StylingResult :=
  match stylingMap !! k with
  | Some s => styling s
  | None =>
      match JS.Object_prototype !! k with
      | Some v => inherited v
      | None => noStyling
      end
  end.

(** [stylingMap[emotionCode] || stylingMap['NEU']]; an entry is an object,
    hence truthy. *)
Definition getEmotionStyling (emotionCode : string) : StylingResult :=
  match getStyling emotionCode with
  | styling s => styling s
  | inherited v => if JS.truthy v then inherited v else getStyling "NEU"
  | noStyling => getStyling "NEU"
  end.

End Emotions.

(* ===================================================================== *)
(** * String and number primitives used by the hooks                      *)
(* ===================================================================== *)

Module JSString.

(** [s.startsWith(p)] *)
Definition startsWith (s p : string) : bool := String.prefix p s.

(** [s.includes(sub)]: [sub] occurs somewhere in [s]. *)
Fixpoint includes (s sub : string) : bool :=
  String.prefix sub s ||
  match s with
  | EmptyString => false
  | String _ s' => includes s' sub
  end.

(** Decimal digits of a natural number, as [String(n)] prints them. *)
Definition ofN (n : N) : string := NilZero.string_of_uint (N.to_uint n).

(** Puts the decimal point in front of the last digit: ["105"] becomes
    ["10.5"] and ["5"] becomes ["0.5"]. *)
Fixpoint pointBeforeLast (digits : string) : string :=
  match digits with
  | EmptyString => "0.0"
  | String d EmptyString => String "." (String d EmptyString)
  | String d rest => String d (pointBeforeLast rest)
  end.

(** [(num / den).toFixed(1)] for integers [num] and [0 < den] whose
    quotient is exact in binary64 (as it is for a byte count below 2^53
    divided by 1024 * 1024).  [Number.prototype.toFixed] takes the integer
    [n] with [n / 10] nearest to the absolute value, the larger one on a
    tie, and prints the sign, the digits of [n] and the point. *)
Definition toFixed1 (num den : Z) : string :=
  let n := Z.to_N ((2 * 10 * Z.abs num + den) / (2 * den)) in
  let digits := ofN n in
  let body :=
    match digits with
    | String d EmptyString => String "0" (pointBeforeLast digits)
    | _ => pointBeforeLast digits
    end in
  if (num <? 0)%Z then String "-" body else body.

End JSString.

(** The notifications of [react-hot-toast] the hooks raise. *)
Inductive Toast :=
| toast_error (message : string)
| toast_success (message : string).

(* ===================================================================== *)
(** * The useFileUpload hook                                              *)
(* ===================================================================== *)

Module FileUpload.
Import JSString.

(** A [File] as the hook reads it: [name], [size] in bytes, [type], and
    the [preview] property the hook adds to images.  Object URLs are
    numbered in the order [URL.createObjectURL] hands them out. *)
Record File := mkFile {
  file_name : string;
  file_size : Z;
  file_type : string;
  file_preview : option nat
}.

(** The hook's arguments [{ accept, maxSize, allowMultiple }]. *)
Record Options := mkOptions {
  accept : string;
  maxSize : Z;
  allowMultiple : bool
}.

(** [useFileUpload({})]: ['audio/*'], 10MB, single file. *)
Definition defaultOptions : Options :=
  mkOptions "audio/*" (10 * 1024 * 1024) false.

(** The hook's state ([files], [isDragging], [uploadProgress]) together
    with what it does to its surroundings: the toasts shown, the number of
    object URLs created and the object URLs revoked. *)
Record State := mkState {
  files : list File;
  isDragging : bool;
  uploadProgress : gmap nat Z;
  toasts : list Toast;
  createdURLs : nat;
  revokedURLs : list nat
}.

Definition initial : State := mkState [] false ∅ [] 0 [].

Section WithOptions.
Variable opts : Options.

(** [validateFile]: the two checks are independent, a file can fail
    both. *)
Definition validateFile (file : File) : list string :=
  let errors := [] in
  let errors :=
    if String.eqb (accept opts) "audio/*"
       && negb (startsWith (file_type file) "audio/")
    then errors ++ [file_name file +:+ ": Invalid file type. Please upload an audio file."]
    else if String.eqb (accept opts) "image/*"
            && negb (startsWith (file_type file) "image/")
    then errors ++ [file_name file +:+ ": Invalid file type. Please upload an image file."]
    else errors in
  let errors :=
    if (maxSize opts <? file_size file)%Z
    then
      let sizeMB := toFixed1 (maxSize opts) (1024 * 1024) in
      errors ++ [file_name file +:+ ": File too large. Maximum size is "
                   +:+ sizeMB +:+ "MB."]
    else errors in
  errors.

(** The accumulators of the [forEach] of [addFiles]. *)
Record Scan := mkScan {
  validFiles : list File;
  allErrors : list string;
  nextURL : nat
}.

(** The body of [fileArray.forEach(file => ...)]. *)
Definition scanFile (acc : Scan) (file : File) : Scan :=
  let errors := validateFile file in
  if (0 <? length errors)%nat
  then mkScan (validFiles acc) (allErrors acc ++ errors) (nextURL acc)
  else
    if startsWith (file_type file) "image/"
    then
      let file' := mkFile (file_name file) (file_size file) (file_type file)
                          (Some (nextURL acc)) in
      mkScan (validFiles acc ++ [file']) (allErrors acc) (S (nextURL acc))
    else mkScan (validFiles acc ++ [file]) (allErrors acc) (nextURL acc).

Definition scanFiles (newFiles : list File) (firstURL : nat) : Scan :=
  fold_left scanFile newFiles (mkScan [] [] firstURL).

(** [`${n} file${n > 1 ? 's' : ''} added successfully`] *)
Definition addedMessage (n : nat) : string :=
  ofN (N.of_nat n) +:+ " file" +:+ (if (1 <? n)%nat then "s" else "")
    +:+ " added successfully".

(** [addFiles(newFiles)] *)
Definition addFiles (newFiles : list File) (s : State) : State :=
  let r := scanFiles newFiles (createdURLs s) in
  let shown := toasts s ++ map toast_error (allErrors r) in
  if (0 <? length (validFiles r))%nat
  then
    let newFilesList :=
      if allowMultiple opts then files s ++ validFiles r else validFiles r in
    mkState newFilesList (isDragging s) (uploadProgress s)
            (shown ++ [toast_success (addedMessage (length (validFiles r)))])
            (nextURL r) (revokedURLs s)
  else
    mkState (files s) (isDragging s) (uploadProgress s) shown
            (nextURL r) (revokedURLs s).

(** The validation errors one call of [addFiles] reports. *)
Definition reportedErrors (newFiles : list File) (s : State) : list string :=
  allErrors (scanFiles newFiles (createdURLs s)).

(** [removeFile(index)]; [None] when [index] is out of range, where
    reading [removedFile.preview] throws. *)
Definition removeFile (index : nat) (s : State) : option State :=
  match files s !! index with
  | None => None
  | Some removedFile =>
      let revoked :=
        match file_preview removedFile with
        | Some u => revokedURLs s ++ [u]
        | None => revokedURLs s
        end in
      Some (mkState (delete index (files s)) (isDragging s)
                    (delete index (uploadProgress s)) (toasts s)
                    (createdURLs s) revoked)
  end.

(** [clearFiles()] *)
Definition clearFiles (s : State) : State :=
  mkState [] (isDragging s) ∅
          (toasts s ++ [toast_success "All files cleared"])
          (createdURLs s)
          (revokedURLs s ++ omap file_preview (files s)).

(** The calls a page makes on the hook.  [handleDrop] and
    [handleFileSelect] are [addFiles] on the dropped or selected files. *)
Inductive Call :=
| call_addFiles (newFiles : list File)
| call_removeFile (index : nat)
| call_clearFiles.

Definition call (c : Call) (s : State) : option State :=
  match c with
  | call_addFiles newFiles => Some (addFiles newFiles s)
  | call_removeFile index => removeFile index s
  | call_clearFiles => Some (clearFiles s)
  end.

(** The states the hook reaches from its initial state. *)
Inductive reachable : State -> Prop :=
| reachable_initial : reachable initial
| reachable_call c s s' :
    reachable s -> call c s = Some s' -> reachable s'.

(** [handleDragOver], [handleDragLeave] *)
Definition handleDragOver (s : State) : State :=
  mkState (files s) true (uploadProgress s) (toasts s) (createdURLs s)
          (revokedURLs s).

Definition handleDragLeave (s : State) : State :=
  mkState (files s) false (uploadProgress s) (toasts s) (createdURLs s)
          (revokedURLs s).

(** [handleDrop], for the files of [e.dataTransfer.files] *)
Definition handleDrop (droppedFiles : list File) (s : State) : State :=
  addFiles droppedFiles (handleDragLeave s).

(** [handleFileSelect], for the files of [e.target.files] *)
Definition handleFileSelect (selectedFiles : list File) (s : State) : State :=
  addFiles selectedFiles s.

(** The values of [progress] in
    [for (let progress = 0; progress <= 100; progress += 10)]. *)
Definition progressValues : list Z := map (fun k => 10 * Z.of_nat k)%Z (seq 0 11).

(** [setUploadProgress(prev => ({ ...prev, [i]: progress }))] *)
Definition setUploadProgress (i : nat) (progress : Z) (s : State) : State :=
  mkState (files s) (isDragging s) (<[i := progress]> (uploadProgress s))
          (toasts s) (createdURLs s) (revokedURLs s).

(** [uploadFiles()]: the two nested loops over the [files] of the render
    that created the callback, then the toast.  The waits between the
    updates are left out: the updates are taken as they follow one another
    with nothing in between. *)
Definition uploadFiles (s : State) : State :=
  let s' :=
    fold_left
      (fun s i => fold_left (fun s progress => setUploadProgress i progress s)
                            progressValues s)
      (seq 0 (length (files s))) s in
  mkState (files s') (isDragging s') (uploadProgress s')
          (toasts s' ++ [toast_success "All files uploaded successfully!"])
          (createdURLs s') (revokedURLs s').

End WithOptions.

(** How many of the messages mention [name]. *)
Definition mentions (name : string) (messages : list string) : nat :=
  length (filter (fun m => includes m name = true) messages).

End FileUpload.


(* ===================================================================== *)
(** * The useAudioRecorder hook                                           *)
(* ===================================================================== *)

Module AudioRecorder.
Local Open Scope float_scope.
#[local] Set Warnings "-inexact-float".

(** ** Browser objects *)

(** [new Blob(parts, { type })]; a part is the data of one
    [dataavailable] event, of which the hook reads only the size. *)
Record Blob := mkBlob {
  blob_parts : list Z;
  blob_type : string
}.

Inductive TrackState := live | ended.

(** A [MediaStream]: the [readyState] of each of its tracks. *)
Definition MediaStream := list TrackState.

(** [track.stop()] on every track of the stream. *)
Definition stopTracks (stream : MediaStream) : MediaStream :=
  map (fun _ => ended) stream.

Inductive RecordingState := inactive | recording | paused.

(** A [MediaRecorder] with the stream it was built on, which is also the
    [stream] its [onstop] handler closes over. *)
Record MediaRecorder := mkRecorder {
  state : RecordingState;
  stream : MediaStream
}.

(** The [<audio>] element behind [audioPlayerRef]: whether it is paused,
    its position, and whether the hook's [ended] and [pause] listeners are
    registered on it. *)
Record AudioElement := mkAudio {
  audio_paused : bool;
  currentTime : float;
  listening : bool
}.

(** A freshly mounted element. *)
Definition newAudio : AudioElement := mkAudio true 0 false.

(** What a memoised callback sees of the hook's state: the value
    [isRecording] had in the render that created it.  [startRecording] and
    [stopRecording] are both memoised on [[isRecording]], so the
    [stopRecording] that a [startRecording] closes over was created for the
    same value of [isRecording] as that [startRecording] itself. *)
Record Closure := mkClosure {
  closure_isRecording : bool
}.

(** How the [try] block of [initializeRecorder] ends. *)
Inductive TryOutcome :=
| completed (stream : MediaStream)
| getUserMedia_rejected (permissionDenied : bool)
| MediaRecorder_threw (stream : MediaStream).

(** ** The hook's state and its surroundings

    The six [useState] cells, the four refs, and the part of the browser
    the hook acts on: the recorders it created, the interval timers that
    are running (each with the closure its callback belongs to), the
    [getUserMedia] requests that have not settled yet (each with the
    closure of the [startRecording] call that waits for it), the recorders
    whose stop task is queued, the object URLs created and revoked, the
    next handle the browser hands out (handles are positive), and the
    toasts shown. *)
Record World := mkWorld {
  isRecording : bool;
  recordingTime : float;
  audioBlob : option Blob;
  audioUrl : option nat;
  isPlaying : bool;
  error : option string;
  mediaRecorderRef : option nat;
  audioPlayerRef : option AudioElement;
  timerRef : option nat;
  chunksRef : list Z;
  recorders : gmap nat MediaRecorder;
  intervals : gmap nat Closure;
  requests : list Closure;
  stopTasks : list nat;
  getUserMediaCalls : nat;
  createdURLs : nat;
  revokedURLs : list nat;
  nextId : nat;
  toasts : list Toast
}.

Definition initial : World :=
  mkWorld false 0 None None false None None None None [] ∅ ∅ [] [] 0 0 [] 1 [].

Definition setIsRecording (v : bool) (w : World) : World :=
  mkWorld v (recordingTime w) (audioBlob w) (audioUrl w) (isPlaying w)
    (error w) (mediaRecorderRef w) (audioPlayerRef w) (timerRef w)
    (chunksRef w) (recorders w) (intervals w) (requests w) (stopTasks w)
    (getUserMediaCalls w) (createdURLs w) (revokedURLs w) (nextId w)
    (toasts w).
Definition setRecordingTime (v : float) (w : World) : World :=
  mkWorld (isRecording w) v (audioBlob w) (audioUrl w) (isPlaying w)
    (error w) (mediaRecorderRef w) (audioPlayerRef w) (timerRef w)
    (chunksRef w) (recorders w) (intervals w) (requests w) (stopTasks w)
    (getUserMediaCalls w) (createdURLs w) (revokedURLs w) (nextId w)
    (toasts w).
Definition setAudioBlob (v : option Blob) (w : World) : World :=
  mkWorld (isRecording w) (recordingTime w) v (audioUrl w) (isPlaying w)
    (error w) (mediaRecorderRef w) (audioPlayerRef w) (timerRef w)
    (chunksRef w) (recorders w) (intervals w) (requests w) (stopTasks w)
    (getUserMediaCalls w) (createdURLs w) (revokedURLs w) (nextId w)
    (toasts w).
Definition setAudioUrl (v : option nat) (w : World) : World :=
  mkWorld (isRecording w) (recordingTime w) (audioBlob w) v (isPlaying w)
    (error w) (mediaRecorderRef w) (audioPlayerRef w) (timerRef w)
    (chunksRef w) (recorders w) (intervals w) (requests w) (stopTasks w)
    (getUserMediaCalls w) (createdURLs w) (revokedURLs w) (nextId w)
    (toasts w).
Definition setIsPlaying (v : bool) (w : World) : World :=
  mkWorld (isRecording w) (recordingTime w) (audioBlob w) (audioUrl w) v
    (error w) (mediaRecorderRef w) (audioPlayerRef w) (timerRef w)
    (chunksRef w) (recorders w) (intervals w) (requests w) (stopTasks w)
    (getUserMediaCalls w) (createdURLs w) (revokedURLs w) (nextId w)
    (toasts w).
Definition setError (v : option string) (w : World) : World :=
  mkWorld (isRecording w) (recordingTime w) (audioBlob w) (audioUrl w)
    (isPlaying w) v (mediaRecorderRef w) (audioPlayerRef w) (timerRef w)
    (chunksRef w) (recorders w) (intervals w) (requests w) (stopTasks w)
    (getUserMediaCalls w) (createdURLs w) (revokedURLs w) (nextId w)
    (toasts w).
Definition set_mediaRecorderRef (v : option nat) (w : World) : World :=
  mkWorld (isRecording w) (recordingTime w) (audioBlob w) (audioUrl w)
    (isPlaying w) (error w) v (audioPlayerRef w) (timerRef w)
    (chunksRef w) (recorders w) (intervals w) (requests w) (stopTasks w)
    (getUserMediaCalls w) (createdURLs w) (revokedURLs w) (nextId w)
    (toasts w).
Definition set_audioPlayerRef (v : option AudioElement) (w : World) : World :=
  mkWorld (isRecording w) (recordingTime w) (audioBlob w) (audioUrl w)
    (isPlaying w) (error w) (mediaRecorderRef w) v (timerRef w)
    (chunksRef w) (recorders w) (intervals w) (requests w) (stopTasks w)
    (getUserMediaCalls w) (createdURLs w) (revokedURLs w) (nextId w)
    (toasts w).
Definition set_timerRef (v : option nat) (w : World) : World :=
  mkWorld (isRecording w) (recordingTime w) (audioBlob w) (audioUrl w)
    (isPlaying w) (error w) (mediaRecorderRef w) (audioPlayerRef w) v
    (chunksRef w) (recorders w) (intervals w) (requests w) (stopTasks w)
    (getUserMediaCalls w) (createdURLs w) (revokedURLs w) (nextId w)
    (toasts w).
Definition set_chunksRef (v : list Z) (w : World) : World :=
  mkWorld (isRecording w) (recordingTime w) (audioBlob w) (audioUrl w)
    (isPlaying w) (error w) (mediaRecorderRef w) (audioPlayerRef w)
    (timerRef w) v (recorders w) (intervals w) (requests w) (stopTasks w)
    (getUserMediaCalls w) (createdURLs w) (revokedURLs w) (nextId w)
    (toasts w).
Definition set_recorders (v : gmap nat MediaRecorder) (w : World) : World :=
  mkWorld (isRecording w) (recordingTime w) (audioBlob w) (audioUrl w)
    (isPlaying w) (error w) (mediaRecorderRef w) (audioPlayerRef w)
    (timerRef w) (chunksRef w) v (intervals w) (requests w) (stopTasks w)
    (getUserMediaCalls w) (createdURLs w) (revokedURLs w) (nextId w)
    (toasts w).
Definition set_intervals (v : gmap nat Closure) (w : World) : World :=
  mkWorld (isRecording w) (recordingTime w) (audioBlob w) (audioUrl w)
    (isPlaying w) (error w) (mediaRecorderRef w) (audioPlayerRef w)
    (timerRef w) (chunksRef w) (recorders w) v (requests w) (stopTasks w)
    (getUserMediaCalls w) (createdURLs w) (revokedURLs w) (nextId w)
    (toasts w).
Definition set_requests (v : list Closure) (w : World) : World :=
  mkWorld (isRecording w) (recordingTime w) (audioBlob w) (audioUrl w)
    (isPlaying w) (error w) (mediaRecorderRef w) (audioPlayerRef w)
    (timerRef w) (chunksRef w) (recorders w) (intervals w) v (stopTasks w)
    (getUserMediaCalls w) (createdURLs w) (revokedURLs w) (nextId w)
    (toasts w).
Definition set_stopTasks (v : list nat) (w : World) : World :=
  mkWorld (isRecording w) (recordingTime w) (audioBlob w) (audioUrl w)
    (isPlaying w) (error w) (mediaRecorderRef w) (audioPlayerRef w)
    (timerRef w) (chunksRef w) (recorders w) (intervals w) (requests w) v
    (getUserMediaCalls w) (createdURLs w) (revokedURLs w) (nextId w)
    (toasts w).
Definition set_getUserMediaCalls (v : nat) (w : World) : World :=
  mkWorld (isRecording w) (recordingTime w) (audioBlob w) (audioUrl w)
    (isPlaying w) (error w) (mediaRecorderRef w) (audioPlayerRef w)
    (timerRef w) (chunksRef w) (recorders w) (intervals w) (requests w)
    (stopTasks w) v (createdURLs w) (revokedURLs w) (nextId w) (toasts w).
Definition set_createdURLs (v : nat) (w : World) : World :=
  mkWorld (isRecording w) (recordingTime w) (audioBlob w) (audioUrl w)
    (isPlaying w) (error w) (mediaRecorderRef w) (audioPlayerRef w)
    (timerRef w) (chunksRef w) (recorders w) (intervals w) (requests w)
    (stopTasks w) (getUserMediaCalls w) v (revokedURLs w) (nextId w)
    (toasts w).
Definition set_revokedURLs (v : list nat) (w : World) : World :=
  mkWorld (isRecording w) (recordingTime w) (audioBlob w) (audioUrl w)
    (isPlaying w) (error w) (mediaRecorderRef w) (audioPlayerRef w)
    (timerRef w) (chunksRef w) (recorders w) (intervals w) (requests w)
    (stopTasks w) (getUserMediaCalls w) (createdURLs w) v (nextId w)
    (toasts w).
Definition set_nextId (v : nat) (w : World) : World :=
  mkWorld (isRecording w) (recordingTime w) (audioBlob w) (audioUrl w)
    (isPlaying w) (error w) (mediaRecorderRef w) (audioPlayerRef w)
    (timerRef w) (chunksRef w) (recorders w) (intervals w) (requests w)
    (stopTasks w) (getUserMediaCalls w) (createdURLs w) (revokedURLs w) v
    (toasts w).
Definition set_toasts (v : list Toast) (w : World) : World :=
  mkWorld (isRecording w) (recordingTime w) (audioBlob w) (audioUrl w)
    (isPlaying w) (error w) (mediaRecorderRef w) (audioPlayerRef w)
    (timerRef w) (chunksRef w) (recorders w) (intervals w) (requests w)
    (stopTasks w) (getUserMediaCalls w) (createdURLs w) (revokedURLs w)
    (nextId w) v.
Definition toast (t : Toast) (w : World) : World :=
  set_toasts (toasts w ++ [t]) w.

(** ** The browser's side *)

(** [clearInterval(id)]; clearing [null] or an unknown id does nothing. *)
Definition clearInterval (id : option nat) (w : World) : World :=
  set_intervals
    match id with
    | Some i => delete i (intervals w)
    | None => intervals w
    end w.

(** [recorder.state] of the recorder in [mediaRecorderRef]. *)
Definition currentRecorderState (w : World) : option RecordingState :=
  match mediaRecorderRef w with
  | Some id => state <$> (recorders w !! id)
  | None => None
  end.

(** [recorder.stop()]: the recorder becomes inactive at once; the final
    [dataavailable] event and the [stop] event are fired later, from a
    queued task (MediaStream Recording, 2.3, [stop()] step 4). *)
Definition MediaRecorder_stop (id : nat) (w : World) : World :=
  match recorders w !! id with
  | Some r =>
      match state r with
      | inactive => w
      | _ =>
          set_stopTasks (stopTasks w ++ [id])
            (set_recorders (<[id := mkRecorder inactive (stream r)]> (recorders w)) w)
      end
  | None => w
  end.

(** [recorder.start(100)] on a recorder that is inactive. *)
Definition MediaRecorder_start (id : nat) (w : World) : World :=
  match recorders w !! id with
  | Some r => set_recorders (<[id := mkRecorder recording (stream r)]> (recorders w)) w
  | None => w
  end.

(** ** The hook's callbacks *)

(** [mediaRecorder.ondataavailable] *)
Definition ondataavailable (data : Z) (w : World) : World :=
  if (0 <? data)%Z then set_chunksRef (chunksRef w ++ [data]) w else w.

(** [mediaRecorder.onstop] of recorder [id] *)
Definition onstop (id : nat) (w : World) : World :=
  let blob := mkBlob (chunksRef w) "audio/webm" in
  let w := setAudioBlob (Some blob) w in
  let w := set_createdURLs (S (createdURLs w)) (setAudioUrl (Some (createdURLs w)) w) in
  let w := set_chunksRef [] w in
  match recorders w !! id with
  | Some r =>
      set_recorders (<[id := mkRecorder (state r) (stopTracks (stream r))]> (recorders w)) w
  | None => w
  end.

(** [stopRecording], as the closure [c] runs it. *)
Definition stopRecording (c : Closure) (w : World) : World :=
  if negb (closure_isRecording c) || negb (bool_decide (is_Some (mediaRecorderRef w)))
  then w
  else
    let w := setIsRecording false w in
    let w := clearInterval (timerRef w) w in
    let w :=
      match mediaRecorderRef w, currentRecorderState w with
      | Some id, Some recording => MediaRecorder_stop id w
      | _, _ => w
      end in
    toast (toast_success "Recording completed!") w.

(** The updater [prev => ...] the timer passes to [setRecordingTime],
    with [stopRecording] the one of the closure [c]. *)
Definition tickUpdater (c : Closure) (w : World) : World :=
  let prev := recordingTime w in
  let newTime := prev + 0.1 in
  if 3.0 <=? newTime
  then setRecordingTime 3.0 (stopRecording c w)
  else setRecordingTime newTime w.

(** [startRecording] up to its [await]: the guard, then the call of
    [getUserMedia] inside [initializeRecorder]. *)
Definition startRecording (c : Closure) (w : World) : World :=
  if closure_isRecording c then w
  else
    set_getUserMediaCalls (S (getUserMediaCalls w))
      (set_requests (requests w ++ [c]) w).

(** The rest of [initializeRecorder] when the [try] block completes. *)
Definition initializeRecorder_completed (stream : MediaStream) (w : World) : World :=
  let id := nextId w in
  let w := set_nextId (S id) w in
  let w := set_recorders (<[id := mkRecorder inactive stream]> (recorders w)) w in
  let w := set_mediaRecorderRef (Some id) w in
  setError None w.

(** The [catch] block of [initializeRecorder]. *)
Definition initializeRecorder_caught (w : World) : World :=
  let w := setError (Some "Microphone access denied or not available") w in
  toast (toast_error "Please allow microphone access to record audio") w.

(** [startRecording] after [initializeRecorder] returned [true]. *)
Definition startRecording_initialized (c : Closure) (w : World) : World :=
  let w := setRecordingTime 0 w in
  let w := setAudioBlob None w in
  let w := setAudioUrl None w in
  let w := setIsRecording true w in
  let w :=
    match mediaRecorderRef w with
    | Some id => MediaRecorder_start id w
    | None => w
    end in
  let id := nextId w in
  let w := set_nextId (S id) w in
  let w := set_intervals (<[id := c]> (intervals w)) w in
  let w := set_timerRef (Some id) w in
  toast (toast_success "Recording started!") w.

(** [startRecording] from its [await] on, for the request at position [i]
    of the pending ones. *)
Definition startRecording_resume (i : nat) (outcome : TryOutcome) (w : World) : World :=
  match requests w !! i with
  | None => w
  | Some c =>
      let w := set_requests (delete i (requests w)) w in
      match outcome with
      | completed stream =>
          startRecording_initialized c (initializeRecorder_completed stream w)
      | getUserMedia_rejected _ | MediaRecorder_threw _ =>
          initializeRecorder_caught w
      end
  end.

(** [playAudio]; it is memoised on [[audioUrl, isPlaying]], so it always
    sees the current values. *)
Definition playAudio (w : World) : World :=
  match audioUrl w, audioPlayerRef w with
  | Some _, Some player =>
      if isPlaying w
      then
        let w := set_audioPlayerRef
                   (Some (mkAudio true (currentTime player) (listening player))) w in
        setIsPlaying false w
      else
        let w := set_audioPlayerRef
                   (Some (mkAudio false (currentTime player) (listening player))) w in
        setIsPlaying true w
  | _, _ => w
  end.

(** [resetRecording]; it is memoised on [[isRecording, stopRecording]], so
    it sees the current [isRecording] and the current [stopRecording]. *)
Definition resetRecording (w : World) : World :=
  let w := if isRecording w then stopRecording (mkClosure (isRecording w)) w else w in
  let w := setRecordingTime 0 w in
  let w := setAudioBlob None w in
  let w := setAudioUrl None w in
  let w := setIsPlaying false w in
  let w := setError None w in
  match audioPlayerRef w with
  | Some player => set_audioPlayerRef (Some (mkAudio true 0 (listening player))) w
  | None => w
  end.

(** [handleEnded] and [handlePause] *)
Definition handleEnded (w : World) : World := setIsPlaying false w.
Definition handlePause (w : World) : World := setIsPlaying false w.

(** The effect on [[audioUrl]]: its clean-up takes the listeners off the
    element it had put them on, its body puts them on the element that is
    in [audioPlayerRef] now, if there is one. *)
Definition playerEffect (w : World) : World :=
  match audioPlayerRef w with
  | Some player =>
      set_audioPlayerRef
        (Some (mkAudio (audio_paused player) (currentTime player) true)) w
  | None => w
  end.

(** The clean-up of the second effect on [[audioUrl]].  It runs whenever
    [audioUrl] changes (and on unmount), reads the refs as they are then,
    and revokes the [audioUrl] of the render it belongs to. *)
Definition cleanup (audioUrl_old : option nat) (w : World) : World :=
  let w :=
    match timerRef w with
    | Some id => if (id =? 0)%nat then w else clearInterval (timerRef w) w
    | None => w
    end in
  let w :=
    match mediaRecorderRef w, currentRecorderState w with
    | Some id, Some recording => MediaRecorder_stop id w
    | _, _ => w
    end in
  match audioUrl_old with
  | Some url => set_revokedURLs (revokedURLs w ++ [url]) w
  | None => w
  end.

(** ** Events

    Everything runs on the single UI thread, one event at a time.  A call
    from the page uses the callbacks of the latest render, whose closures
    hold the current state. *)
Inductive Event :=
| call_startRecording
| call_stopRecording
| call_playAudio
| call_resetRecording
| getUserMedia_settled (i : nat) (outcome : TryOutcome)
| interval_fired (id : nat)
| recorder_dataavailable (id : nat) (data : Z)
| recorder_stopTask (id : nat) (data : Z)
| player_ended
| player_paused
| player_mounted (withEffect : bool)
| player_unmounted.

(** The closure of the callbacks of the render that shows [w]. *)
Definition rendered (w : World) : Closure := mkClosure (isRecording w).

Definition handle (e : Event) (w : World) : World :=
  match e with
  | call_startRecording => startRecording (rendered w) w
  | call_stopRecording => stopRecording (rendered w) w
  | call_playAudio => playAudio w
  | call_resetRecording => resetRecording w
  | getUserMedia_settled i outcome => startRecording_resume i outcome w
  | interval_fired id =>
      match intervals w !! id with
      | Some c => tickUpdater c w
      | None => w
      end
  | recorder_dataavailable id data =>
      match recorders w !! id with
      | Some r =>
          match state r with
          | recording => ondataavailable data w
          | _ => w
          end
      | None => w
      end
  | recorder_stopTask id data =>
      if bool_decide (id ∈ stopTasks w)
      then
        let w := set_stopTasks (filter (fun j => j ≠ id) (stopTasks w)) w in
        onstop id (ondataavailable data w)
      else w
  | player_ended =>
      match audioPlayerRef w with
      | Some player => if listening player then handleEnded w else w
      | None => w
      end
  | player_paused =>
      match audioPlayerRef w with
      | Some player => if listening player then handlePause w else w
      | None => w
      end
  | player_mounted withEffect =>
      let w := set_audioPlayerRef (Some newAudio) w in
      if withEffect then playerEffect w else w
  | player_unmounted => set_audioPlayerRef None w
  end.

(** One event: the handler, then the render it causes.  When [audioUrl]
    has changed, the render runs the clean-up of the effects on
    [[audioUrl]] and then the effects themselves. *)
Definition step (w : World) (e : Event) : World :=
  let w' := handle e w in
  if bool_decide (audioUrl w' = audioUrl w) then w'
  else playerEffect (cleanup (audioUrl w) w').

Definition run (events : list Event) (w : World) : World :=
  fold_left step events w.

(** The session states of the specification, read off the hook's state. *)
Inductive Session := Idle | Recording | Stopped | Error.

Definition session (w : World) : Session :=
  if isRecording w then Recording
  else if bool_decide (is_Some (error w)) then Error
  else if bool_decide (is_Some (audioBlob w)) then Stopped
  else Idle.

End AudioRecorder.


(* ===================================================================== *)
(** * components/AudioComponents.jsx: the progress bar                    *)
(* ===================================================================== *)

Module AudioComponents.
Local Open Scope float_scope.

(** [Math.min(a, b)]: [NaN] if either argument is [NaN]; [-0] counts as
    smaller than [+0]. *)
Definition Math_min (a b : float) : float :=
  if is_nan a || is_nan b then nan
  else if a <? b then a
  else if b <? a then b
  else if get_sign a then a else b.

(** [const progress = (recordingTime / maxTime) * 100] *)
Definition progress (recordingTime maxTime : float) : float :=
  (recordingTime / maxTime) * 100.

(** The number in the [width] style of the bar,
    [`${Math.min(progress, 100)}%`]. *)
Definition progressWidth (recordingTime maxTime : float) : float :=
  Math_min (progress recordingTime maxTime) 100.

(** [maxTime = 3], the default, which is also what every page passes. *)
Definition maxTime_default : float := 3.

End AudioComponents.

(* ===================================================================== *)
(** * Results on utils/emotions.js                                        *)
(* ===================================================================== *)

Module EmotionsFacts.
Import Emotions.

(** The eight codes have their display names. *)
Lemma getEmotionDisplayName_known :
  map getEmotionDisplayName known_codes =
  map JS.Str ["Angry"; "Calm"; "Disgusted"; "Fearful"; "Happy"; "Neutral";
              "Sad"; "Surprised"].
Proof. vm_compute. reflexivity. Qed.

Lemma get_miss (own : gmap string string) (k : string) :
  own !! k = None -> JS.Object_prototype !! k = None ->
  JS.get own k = JS.Undefined.
Proof. intros Hown Hproto. unfold JS.get. rewrite Hown, Hproto. reflexivity. Qed.

(** A string that names neither an own property of [emotionMap] nor a
    property of [Object.prototype] comes back unchanged. *)
Lemma getEmotionDisplayName_fallback (emotionCode : string) :
  emotionMap !! emotionCode = None ->
  JS.Object_prototype !! emotionCode = None ->
  getEmotionDisplayName emotionCode = JS.Str emotionCode.
Proof.
  intros Hown Hproto. unfold getEmotionDisplayName.
  rewrite (get_miss _ _ Hown Hproto). reflexivity.
Qed.

(** Under the same condition [getEmotionEmoji] gives the neutral face. *)
Lemma getEmotionEmoji_fallback (emotionCode : string) :
  emojiMap !! emotionCode = None ->
  JS.Object_prototype !! emotionCode = None ->
  getEmotionEmoji emotionCode = JS.Str "😐".
Proof.
  intros Hown Hproto. unfold getEmotionEmoji.
  rewrite (get_miss _ _ Hown Hproto). reflexivity.
Qed.

(** C10, at the input ["constructor"]: the lookup [emotionMap[emotionCode]]
    finds the property every object literal inherits, so
    [getEmotionDisplayName] returns the function [Object] and not the input
    string, and [getEmotionEmoji] returns that function and not the neutral
    face.  The same happens for each of the other names of
    [JS.Object_prototype]. *)
Theorem getEmotionDisplayName_inherited_property :
  getEmotionDisplayName "constructor" = JS.Func "Object" /\
  getEmotionDisplayName "constructor" <> JS.Str "constructor" /\
  getEmotionEmoji "constructor" = JS.Func "Object" /\
  getEmotionEmoji "constructor" <> JS.Str "😐".
Proof. vm_compute. repeat split; congruence. Qed.

(** The three tables have the same keys, the eight codes. *)
Lemma tables_keys (emotionCode : string) :
  (is_Some (emotionMap !! emotionCode) <-> In emotionCode known_codes) /\
  (is_Some (emojiMap !! emotionCode) <-> In emotionCode known_codes) /\
  (is_Some (stylingMap !! emotionCode) <-> In emotionCode known_codes).
Proof.
  assert (H : forall (A : Type) (l : list (string * A)),
             l.*1 = known_codes ->
             is_Some ((list_to_map l : gmap string A) !! emotionCode)
             <-> In emotionCode known_codes).
  { intros A l Hl. rewrite <- Hl, <- list_elem_of_In. split.
    - intros [v Hv]. apply list_elem_of_fmap. exists (emotionCode, v).
      split; [reflexivity|]. apply elem_of_list_to_map_2, Hv.
    - intros Hin. destruct (list_to_map l !! emotionCode) eqn:E; [eauto|].
      apply not_elem_of_list_to_map_2 in E. contradiction. }
  repeat split; apply H; reflexivity.
Qed.

Lemma getEmotionDisplayName_known_code (emotionCode : string) :
  In emotionCode known_codes ->
  exists name, emotionMap !! emotionCode = Some name /\
               getEmotionDisplayName emotionCode = JS.Str name.
Proof.
  unfold known_codes. intros H.
  repeat (destruct H as [<- | H]; [eexists; split; vm_compute; reflexivity|]).
  destruct H.
Qed.

(** X1.  What the three look-ups do on every string that is not the name
    of a property inherited from [Object.prototype]: for the eight codes
    [getEmotionDisplayName] gives the name in [emotionMap], [getEmotionEmoji]
    the emoji in [emojiMap] and [getEmotionStyling] the entry of [stylingMap];
    for any other string they give the string itself, the neutral face and
    the entry of ["NEU"]. *)
Theorem emotion_lookups (emotionCode : string) :
  JS.Object_prototype !! emotionCode = None ->
  (In emotionCode known_codes ->
   (exists name, emotionMap !! emotionCode = Some name /\
                 getEmotionDisplayName emotionCode = JS.Str name) /\
   (exists emoji, emojiMap !! emotionCode = Some emoji /\
                  getEmotionEmoji emotionCode = JS.Str emoji) /\
   (exists s, stylingMap !! emotionCode = Some s /\
              getEmotionStyling emotionCode = styling s)) /\
  (~ In emotionCode known_codes ->
   getEmotionDisplayName emotionCode = JS.Str emotionCode /\
   getEmotionEmoji emotionCode = JS.Str "😐" /\
   getEmotionStyling emotionCode = getEmotionStyling "NEU" /\
   exists s, getEmotionStyling emotionCode = styling s /\ color s = "gray").
Proof.
  intros Hproto. destruct (tables_keys emotionCode) as (Hname & Hemoji & Hstyle).
  split.
  - intros Hknown. split; [exact (getEmotionDisplayName_known_code _ Hknown)|].
    split.
    + unfold known_codes in Hknown.
      repeat (destruct Hknown as [<- | Hknown];
              [eexists; split; vm_compute; reflexivity|]).
      destruct Hknown.
    + destruct (proj2 Hstyle Hknown) as [s Hs]. exists s. split; [exact Hs|].
      unfold getEmotionStyling, getStyling. rewrite Hs. reflexivity.
  - intros Hunknown.
    assert (Hn : emotionMap !! emotionCode = None).
    { destruct (emotionMap !! emotionCode) eqn:E; [|reflexivity].
      exfalso. apply Hunknown, Hname. eauto. }
    assert (He : emojiMap !! emotionCode = None).
    { destruct (emojiMap !! emotionCode) eqn:E; [|reflexivity].
      exfalso. apply Hunknown, Hemoji. eauto. }
    assert (Hs : stylingMap !! emotionCode = None).
    { destruct (stylingMap !! emotionCode) eqn:E; [|reflexivity].
      exfalso. apply Hunknown, Hstyle. eauto. }
    assert (Hst : getEmotionStyling emotionCode = getStyling "NEU").
    { unfold getEmotionStyling, getStyling at 1. rewrite Hs, Hproto. reflexivity. }
    split; [apply getEmotionDisplayName_fallback; assumption|].
    split; [apply getEmotionEmoji_fallback; assumption|].
    split; [rewrite Hst; reflexivity|].
    rewrite Hst. eexists. split; reflexivity.
Qed.

Lemma emotion_lookups_witness :
  getEmotionDisplayName "joy" = JS.Str "joy" /\
  getEmotionEmoji "joy" = JS.Str "😐" /\
  getEmotionStyling "joy" = getEmotionStyling "NEU" /\
  exists s, getEmotionStyling "joy" = styling s /\ color s = "gray".
Proof.
  apply (emotion_lookups "joy").
  - vm_compute. reflexivity.
  - unfold known_codes. intros H.
    repeat (destruct H as [H | H]; [discriminate H|]). destruct H.
Defined.

End EmotionsFacts.

(* ===================================================================== *)
(** * Results on the string primitives                                    *)
(* ===================================================================== *)

Module JSStringFacts.
Import JSString.

Lemma prefix_append (p rest : string) : String.prefix p (p +:+ rest) = true.
Proof.
  induction p as [|a p IH]; simpl.
  - destruct rest; reflexivity.
  - destruct (ascii_dec a a) as [_|Hne]; [exact IH | contradiction].
Qed.

Lemma includes_prefix (s sub : string) :
  String.prefix sub s = true -> includes s sub = true.
Proof. intros H. destruct s; cbn [includes]; rewrite H; reflexivity. Qed.

(** A message that starts with a name mentions it. *)
Lemma includes_append (name rest : string) : includes (name +:+ rest) name = true.
Proof. apply includes_prefix, prefix_append. Qed.

End JSStringFacts.

(* ===================================================================== *)
(** * Results on the useFileUpload hook                                   *)
(* ===================================================================== *)

Module FileUploadFacts.
Import JSString JSStringFacts FileUpload.

(** Two files are the same upload when they differ at most in the
    [preview] the hook attaches. *)
Definition sameFile (f g : File) : Prop :=
  file_name f = file_name g /\ file_size f = file_size g /\
  file_type f = file_type g.

(** The type check of [validateFile], on its own. *)
Definition passesTypeCheck (opts : Options) (file : File) : bool :=
  negb (String.eqb (accept opts) "audio/*"
          && negb (startsWith (file_type file) "audio/"))
  && negb (String.eqb (accept opts) "image/*"
             && negb (startsWith (file_type file) "image/")).

(** The message of the size check. *)
Definition tooLargeMessage (opts : Options) (file : File) : string :=
  file_name file +:+ ": File too large. Maximum size is "
    +:+ toFixed1 (maxSize opts) (1024 * 1024) +:+ "MB.".

Section WithOptions.
Variable opts : Options.

Lemma validateFile_sameFile f g :
  sameFile f g -> validateFile opts f = validateFile opts g.
Proof.
  intros (Hn & Hs & Ht). unfold validateFile. rewrite Hn, Hs, Ht. reflexivity.
Qed.

(** A file of an accepted type that is too large gets the size message
    and nothing else. *)
Lemma validateFile_too_large file :
  passesTypeCheck opts file = true ->
  (maxSize opts < file_size file)%Z ->
  validateFile opts file = [tooLargeMessage opts file].
Proof.
  unfold passesTypeCheck, validateFile, tooLargeMessage. intros Ht Hs.
  apply andb_prop in Ht as [Ha Hi].
  apply negb_true_iff in Ha, Hi. rewrite Ha, Hi.
  apply Z.ltb_lt in Hs. rewrite Hs. reflexivity.
Qed.

(** A file of an accepted type within the size limit has no error. *)
Lemma validateFile_valid file :
  passesTypeCheck opts file = true ->
  (file_size file <= maxSize opts)%Z ->
  validateFile opts file = [].
Proof.
  unfold passesTypeCheck, validateFile. intros Ht Hs.
  apply andb_prop in Ht as [Ha Hi].
  apply negb_true_iff in Ha, Hi. rewrite Ha, Hi.
  apply Z.ltb_ge in Hs. rewrite Hs. reflexivity.
Qed.

(** *** The loop of [addFiles] *)

Lemma scanFile_allErrors acc file :
  allErrors (scanFile opts acc file) = allErrors acc ++ validateFile opts file.
Proof.
  unfold scanFile. destruct (validateFile opts file) as [|e errors]; simpl.
  - destruct (startsWith _ _); simpl; rewrite app_nil_r; reflexivity.
  - reflexivity.
Qed.

Lemma fold_scanFile_allErrors newFiles acc :
  allErrors (fold_left (scanFile opts) newFiles acc) =
  allErrors acc ++ concat (map (validateFile opts) newFiles).
Proof.
  revert acc. induction newFiles as [|file rest IH]; intros acc; simpl.
  - rewrite app_nil_r. reflexivity.
  - rewrite IH, scanFile_allErrors, <- app_assoc. reflexivity.
Qed.

(** The errors of a batch are the errors of its files, in order. *)
Lemma reportedErrors_concat newFiles s :
  reportedErrors opts newFiles s = concat (map (validateFile opts) newFiles).
Proof. unfold reportedErrors, scanFiles. apply fold_scanFile_allErrors. Qed.

(** Every file the loop keeps is a file of the batch without errors, or
    was kept before. *)
Lemma fold_scanFile_validFiles_sound newFiles acc g :
  In g (validFiles (fold_left (scanFile opts) newFiles acc)) ->
  In g (validFiles acc) \/
  exists f, In f newFiles /\ sameFile f g /\ validateFile opts f = [].
Proof.
  revert acc. induction newFiles as [|file rest IH]; intros acc; simpl.
  - auto.
  - intros Hg. destruct (IH _ Hg) as [Hacc | (f & Hf & Hsame & Hval)].
    + unfold scanFile in Hacc.
      destruct (validateFile opts file) as [|e errors] eqn:Hv; simpl in Hacc.
      * destruct (startsWith _ _); simpl in Hacc;
          apply in_app_or in Hacc as [Hacc | [<- | []]]; auto;
          right; exists file; repeat split; auto.
      * auto.
    + right. exists f. auto.
Qed.

(** Every file of the batch without errors is kept. *)
Lemma fold_scanFile_validFiles_complete newFiles acc f :
  In f newFiles -> validateFile opts f = [] ->
  exists g, In g (validFiles (fold_left (scanFile opts) newFiles acc)) /\
            sameFile f g.
Proof.
  assert (Hkeep : forall l a g,
             In g (validFiles a) ->
             In g (validFiles (fold_left (scanFile opts) l a))).
  { induction l as [|file rest IH]; intros a g Hg; simpl; [exact Hg|].
    apply IH. unfold scanFile.
    destruct (0 <? length (validateFile opts file))%nat; [exact Hg|].
    destruct (startsWith _ _); simpl; apply in_or_app; auto. }
  revert acc. induction newFiles as [|file rest IH]; intros acc Hin Hval.
  - destruct Hin.
  - destruct Hin as [-> | Hin]; [|simpl; apply IH; assumption].
    simpl. unfold scanFile at 2. rewrite Hval. simpl.
    destruct (startsWith _ _).
    + eexists. split; [apply Hkeep; simpl; apply in_or_app; right; left; reflexivity|].
      repeat split.
    + exists f. split; [apply Hkeep; simpl; apply in_or_app; right; left; reflexivity|].
      repeat split.
Qed.

(** *** What the hook's state holds *)

(** Every file in [files] passed [validateFile]. *)
Definition allValid (s : State) : Prop :=
  forall g, In g (files s) -> validateFile opts g = [].

Lemma addFiles_allValid newFiles s : allValid s -> allValid (addFiles opts newFiles s).
Proof.
  intros Hs g. unfold addFiles.
  assert (Hnew : In g (validFiles (scanFiles opts newFiles (createdURLs s))) ->
                 validateFile opts g = []).
  { intros Hg. apply fold_scanFile_validFiles_sound in Hg
      as [[] | (f & _ & Hsame & Hval)].
    rewrite <- (validateFile_sameFile _ _ Hsame). exact Hval. }
  destruct (0 <? _)%nat; simpl; [|apply Hs].
  destruct (allowMultiple opts); [|exact Hnew].
  intros Hg. apply in_app_or in Hg as [Hg | Hg]; auto.
Qed.

Lemma reachable_allValid s : reachable opts s -> allValid s.
Proof.
  induction 1 as [|c s s' _ IH Hcall].
  - intros g [].
  - destruct c as [newFiles | index |]; simpl in Hcall.
    + injection Hcall as <-. apply addFiles_allValid, IH.
    + unfold removeFile in Hcall.
      destruct (files s !! index) as [removed|]; [|discriminate].
      injection Hcall as <-. intros g Hg. simpl in Hg. apply IH.
      apply list_elem_of_In in Hg. apply list_elem_of_In.
      eapply list_elem_of_delete_inv, Hg.
    + injection Hcall as <-. intros g [].
Qed.

End WithOptions.

(** *** Counting the messages that mention a name *)

Lemma mentions_app name l1 l2 :
  mentions name (l1 ++ l2) = (mentions name l1 + mentions name l2)%nat.
Proof. unfold mentions. rewrite filter_app, length_app. reflexivity. Qed.

Lemma mentions_none name l :
  (forall m, In m l -> includes m name = false) -> mentions name l = 0%nat.
Proof.
  unfold mentions. induction l as [|m l IH]; intros H; [reflexivity|].
  rewrite filter_cons. destruct (decide _) as [Hm|_].
  - rewrite (H m) in Hm by (left; reflexivity). discriminate.
  - apply IH. intros m' Hm'. apply H. right. exact Hm'.
Qed.

(** *** A batch with one oversized file *)

(** The hook with its default options, a file [tooBig] of 11,000,000 bytes
    that is not audio either, and a small audio file. *)
Definition tooBig : File := mkFile "a.txt" 11000000 "text/plain" None.
Definition small : File := mkFile "b.wav" 1000 "audio/wav" None.

(** C7 as stated fails: [tooBig] exceeds [maxSize] and [small] passes both
    checks, and [addFiles] accepts [small] only, but it reports two errors
    that contain the name of [tooBig], one from the type check and one from
    the size check. *)
Lemma addFiles_reports_both_errors :
  (maxSize defaultOptions < file_size tooBig)%Z /\
  validateFile defaultOptions small = [] /\
  files (addFiles defaultOptions [tooBig; small] initial) = [small] /\
  reportedErrors defaultOptions [tooBig; small] initial =
    ["a.txt: Invalid file type. Please upload an audio file.";
     "a.txt: File too large. Maximum size is 10.0MB."] /\
  mentions (file_name tooBig)
           (reportedErrors defaultOptions [tooBig; small] initial) = 2%nat.
Proof. vm_compute. repeat split; reflexivity. Qed.

(** C7, amended.  In any state the hook reaches, for a batch in which [A]
    exceeds [maxSize] but has an accepted type, [B] passes both checks, and
    no error of another file of the batch contains the name of [A]:
    [addFiles] leaves [B] in [files] (with its preview, if it is an image),
    leaves [A] out of it, and reports exactly one error that contains the
    name of [A], the size error of [A]. *)
Theorem addFiles_oversized_and_valid
    (opts : Options) (s : State) (before after : list File) (A B : File) :
  reachable opts s ->
  (maxSize opts < file_size A)%Z ->
  passesTypeCheck opts A = true ->
  passesTypeCheck opts B = true ->
  (file_size B <= maxSize opts)%Z ->
  In B (before ++ after) ->
  (forall f m, In f (before ++ after) -> In m (validateFile opts f) ->
               includes m (file_name A) = false) ->
  let batch := before ++ A :: after in
  let s' := addFiles opts batch s in
  (exists B', In B' (files s') /\ sameFile B B') /\
  (forall A', In A' (files s') -> ~ sameFile A A') /\
  In (tooLargeMessage opts A) (reportedErrors opts batch s) /\
  mentions (file_name A) (reportedErrors opts batch s) = 1%nat.
Proof.
  intros Hreach HA_size HA_type HB_type HB_size HB_in Hothers batch s'.
  pose proof (validateFile_too_large opts A HA_type HA_size) as HvA.
  pose proof (validateFile_valid opts B HB_type HB_size) as HvB.
  assert (HB_batch : In B batch).
  { unfold batch. apply in_app_or in HB_in as [H|H]; apply in_or_app; simpl; auto. }
  destruct (fold_scanFile_validFiles_complete opts batch
              (mkScan [] [] (createdURLs s)) B HB_batch HvB) as (B' & HB' & Hsame).
  fold (scanFiles opts batch (createdURLs s)) in HB'.
  assert (Hfiles : forall g, In g (validFiles (scanFiles opts batch (createdURLs s))) ->
                             In g (files s')).
  { intros g Hg. unfold s', addFiles.
    destruct (0 <? _)%nat eqn:Hlen.
    - simpl. destruct (allowMultiple opts); [apply in_or_app; right|]; exact Hg.
    - apply Nat.ltb_ge in Hlen.
      destruct (validFiles _); [destruct Hg | simpl in Hlen; lia]. }
  repeat split.
  - exists B'. split; [apply Hfiles, HB' | exact Hsame].
  - intros A' HA' Hsame'.
    pose proof (reachable_allValid opts s Hreach) as Hvalid.
    pose proof (addFiles_allValid opts batch s Hvalid A' HA') as HvA'.
    rewrite <- (validateFile_sameFile opts A A' Hsame'), HvA in HvA'.
    discriminate.
  - rewrite reportedErrors_concat. unfold batch.
    rewrite map_app, concat_app. apply in_or_app. right.
    simpl. rewrite HvA. left. reflexivity.
  - rewrite reportedErrors_concat. unfold batch.
    rewrite map_app, concat_app. simpl. rewrite HvA.
    rewrite !mentions_app.
    rewrite (mentions_none _ (concat (map (validateFile opts) before))),
            (mentions_none _ (concat (map (validateFile opts) after))).
    + unfold mentions, tooLargeMessage. rewrite filter_cons.
      destruct (decide _) as [_|Hno]; [reflexivity|].
      exfalso. apply Hno, includes_append.
    + intros m Hm. apply in_concat in Hm as (errors & Herrors & Hm).
      apply in_map_iff in Herrors as (f & <- & Hf).
      apply (Hothers f m); [apply in_or_app; right; exact Hf | exact Hm].
    + intros m Hm. apply in_concat in Hm as (errors & Herrors & Hm).
      apply in_map_iff in Herrors as (f & <- & Hf).
      apply (Hothers f m); [apply in_or_app; left; exact Hf | exact Hm].
Qed.

(** The amended C7 at a concrete batch: an audio file of 11,000,000 bytes
    followed by the small audio file, added to the initial state. *)
Definition tooBigAudio : File := mkFile "a.wav" 11000000 "audio/wav" None.

Lemma addFiles_oversized_and_valid_witness :
  let s' := addFiles defaultOptions [tooBigAudio; small] initial in
  (exists B', In B' (files s') /\ sameFile small B') /\
  (forall A', In A' (files s') -> ~ sameFile tooBigAudio A') /\
  In (tooLargeMessage defaultOptions tooBigAudio)
     (reportedErrors defaultOptions [tooBigAudio; small] initial) /\
  mentions (file_name tooBigAudio)
           (reportedErrors defaultOptions [tooBigAudio; small] initial) = 1%nat.
Proof.
  apply (addFiles_oversized_and_valid defaultOptions initial [] [small]
           tooBigAudio small).
  - apply reachable_initial.
  - vm_compute. reflexivity.
  - reflexivity.
  - reflexivity.
  - vm_compute. discriminate.
  - simpl. left. reflexivity.
  - intros f m [<- | []] Hm. vm_compute in Hm. destruct Hm.
Defined.

End FileUploadFacts.

(* ===================================================================== *)
(** * More on the useFileUpload hook                                      *)
(* ===================================================================== *)

Module FileUploadMore.
Import JSString JSStringFacts FileUpload FileUploadFacts.

(** ** [validateFile] *)

(** X2.  [validateFile] returns no error exactly for a file of an accepted
    type whose size is at most [maxSize]; it never returns more than two
    errors, and every error starts with the name of the file. *)
Theorem validateFile_errors (opts : Options) (file : File) :
  (validateFile opts file = [] <->
   passesTypeCheck opts file = true /\ (file_size file <= maxSize opts)%Z) /\
  length (validateFile opts file) <= 2 /\
  forall m, In m (validateFile opts file) ->
            startsWith m (file_name file) = true.
Proof.
  unfold validateFile, passesTypeCheck, startsWith.
  destruct (String.eqb (accept opts) "audio/*" && negb _) eqn:Ha;
    destruct (String.eqb (accept opts) "image/*" && negb _) eqn:Hi;
    destruct (Z.ltb_spec (maxSize opts) (file_size file)) as [Hs | Hs];
    cbn [app negb andb length]; (split; [|split]).
  all: try (cbn [length]; lia).
  all: try (intros m Hm;
            repeat (destruct Hm as [<- | Hm]; [apply prefix_append | ]);
            destruct Hm).
  all: split; [intros H | intros [H1 H2]];
    try discriminate; try lia; try reflexivity; try (split; [reflexivity | lia]).
Qed.

(** ** [addFiles] *)

(** The files of a batch that [validateFile] lets through, in order. *)
Definition accepted (opts : Options) (batch : list File) : list File :=
  filter (fun f => validateFile opts f = []) batch.

Lemma fold_scanFile_validFiles (opts : Options) (batch : list File) (acc : Scan) :
  exists added,
    validFiles (fold_left (scanFile opts) batch acc) = validFiles acc ++ added /\
    Forall2 sameFile (accepted opts batch) added.
Proof.
  revert acc. induction batch as [|file rest IH]; intros acc.
  - exists []. split; [symmetry; apply app_nil_r | constructor].
  - cbn [fold_left]. destruct (IH (scanFile opts acc file)) as (added & Hadded & Hsame).
    unfold accepted. rewrite filter_cons. fold (accepted opts rest).
    unfold scanFile in Hadded |- *.
    destruct (decide (validateFile opts file = [])) as [Hv | Hv].
    + rewrite Hv in Hadded |- *. cbn [length Nat.ltb Nat.leb] in Hadded |- *.
      destruct (startsWith (file_type file) "image/"); cbn [validFiles] in Hadded |- *.
      * eexists (_ :: added). rewrite <- app_assoc in Hadded. split; [exact Hadded|].
        constructor; [repeat split | exact Hsame].
      * exists (file :: added). rewrite <- app_assoc in Hadded. split; [exact Hadded|].
        constructor; [repeat split | exact Hsame].
    + destruct (validateFile opts file) as [|e errors]; [contradiction|].
      exists added. split; assumption.
Qed.

(** X3.  What one call of [addFiles] does.  The files taken are the files
    of the batch without validation error, in the order of the batch (each
    with its preview, if it is an image).  Every validation error is shown as
    an error toast, in the order of the batch.  If no file is taken, [files]
    stays as it is and there is no success toast; otherwise the files taken
    replace [files], or are appended to it when [allowMultiple] is set, and
    one success toast gives their number. *)
Theorem addFiles_outcome (opts : Options) (batch : list File) (s : State) :
  let s' := addFiles opts batch s in
  exists taken,
    Forall2 sameFile (accepted opts batch) taken /\
    files s' = match taken with
               | [] => files s
               | _ => if allowMultiple opts then files s ++ taken else taken
               end /\
    toasts s' = toasts s
                  ++ map toast_error (concat (map (validateFile opts) batch))
                  ++ match taken with
                     | [] => []
                     | _ => [toast_success (addedMessage (length taken))]
                     end /\
    isDragging s' = isDragging s /\
    uploadProgress s' = uploadProgress s /\
    revokedURLs s' = revokedURLs s.
Proof.
  intros s'. subst s'. unfold addFiles.
  pose proof (fold_scanFile_allErrors opts batch (mkScan [] [] (createdURLs s))) as Herr.
  destruct (fold_scanFile_validFiles opts batch (mkScan [] [] (createdURLs s)))
    as (taken & Htaken & Hsame).
  fold (scanFiles opts batch (createdURLs s)) in Herr, Htaken.
  cbn [allErrors validFiles app] in Herr, Htaken.
  rewrite Herr, Htaken. exists taken. split; [exact Hsame|].
  destruct taken as [|f taken]; cbn [length Nat.ltb Nat.leb files toasts isDragging
                                       uploadProgress revokedURLs].
  - rewrite app_nil_r. repeat split.
  - rewrite <- app_assoc. repeat split.
Qed.

(** X4.  In every state the hook reaches, every file in [files] has an
    accepted type and a size of at most [maxSize]: a file that fails a check
    never gets in, whatever is added, removed or cleared. *)
Theorem files_always_valid (opts : Options) (s : State) (f : File) :
  reachable opts s ->
  In f (files s) ->
  passesTypeCheck opts f = true /\ (file_size f <= maxSize opts)%Z.
Proof.
  intros Hreach Hf. apply validateFile_errors.
  exact (reachable_allValid opts s Hreach f Hf).
Qed.

Lemma files_always_valid_witness :
  let s := addFiles defaultOptions [tooBig; small; tooBigAudio] initial in
  passesTypeCheck defaultOptions small = true /\
  (file_size small <= maxSize defaultOptions)%Z.
Proof.
  intros s.
  apply (files_always_valid defaultOptions s small).
  - apply (reachable_call defaultOptions
             (call_addFiles [tooBig; small; tooBigAudio]) initial s);
      [apply reachable_initial | reflexivity].
  - vm_compute. left. reflexivity.
Defined.

(** ** [removeFile] *)

(** Three images for a hook that takes several files and makes previews. *)
Definition imageOptions : Options := mkOptions "image/*" (5 * 1024 * 1024) true.
Definition photo (name : string) : File := mkFile name 2048 "image/png" None.

(** X6.  [removeFile(index)] fails for an index past the end.  For an index
    in range it takes out that file, moves the later files down by one and
    revokes the preview of the file taken out; in [uploadProgress] it deletes
    the entry of [index] and leaves every other entry under the index it had,
    so the progress of a later file stays under its old index. *)
Theorem removeFile_shifts_files_not_progress (index : nat) (s : State) :
  (length (files s) <= index -> removeFile index s = None) /\
  (forall f, files s !! index = Some f ->
     exists s',
       removeFile index s = Some s' /\
       S (length (files s')) = length (files s) /\
       (forall j, j < index -> files s' !! j = files s !! j) /\
       (forall j, index <= j -> files s' !! j = files s !! S j) /\
       uploadProgress s' !! index = None /\
       (forall j, j <> index -> uploadProgress s' !! j = uploadProgress s !! j) /\
       revokedURLs s' = revokedURLs s ++ match file_preview f with
                                         | Some u => [u]
                                         | None => []
                                         end).
Proof.
  split.
  - intros Hlen. unfold removeFile.
    rewrite (proj2 (lookup_ge_None (files s) index)) by lia. reflexivity.
  - intros f Hf. unfold removeFile. rewrite Hf. eexists. split; [reflexivity|].
    cbn [files uploadProgress revokedURLs].
    assert (Hlt : index < length (files s)) by (eapply lookup_lt_Some, Hf).
    split; [rewrite length_delete by eauto; lia|].
    split; [intros j Hj; apply list_lookup_delete_lt, Hj|].
    split; [intros j Hj; apply list_lookup_delete_ge, Hj|].
    split; [apply lookup_delete_eq|].
    split; [intros j Hj; apply lookup_delete_ne; congruence|].
    destruct (file_preview f); [reflexivity | symmetry; apply app_nil_r].
Qed.

Lemma removeFile_shifts_files_not_progress_witness :
  let s := uploadFiles
             (addFiles imageOptions [photo "a.png"; photo "b.png"; photo "c.png"]
                       initial) in
  removeFile 3 s = None /\
  exists s',
    removeFile 1 s = Some s' /\
    files s' !! 0%nat = Some (mkFile "a.png" 2048 "image/png" (Some 0%nat)) /\
    files s' !! 1%nat = Some (mkFile "c.png" 2048 "image/png" (Some 2%nat)) /\
    files s' !! 2%nat = None /\
    uploadProgress s' !! 0%nat = Some 100%Z /\
    uploadProgress s' !! 1%nat = None /\
    uploadProgress s' !! 2%nat = Some 100%Z /\
    revokedURLs s' = [1%nat].
Proof.
  intros s.
  split.
  - apply (proj1 (removeFile_shifts_files_not_progress 3 s)).
    vm_compute. reflexivity.
  - destruct (proj2 (removeFile_shifts_files_not_progress 1 s)
                (mkFile "b.png" 2048 "image/png" (Some 1%nat)))
      as (s' & Hs' & _ & Hbefore & Hafter & Hgone & Hkept & Hrevoked);
      [vm_compute; reflexivity|].
    exists s'. split; [exact Hs'|].
    split; [rewrite (Hbefore 0%nat) by lia; vm_compute; reflexivity|].
    split; [rewrite (Hafter 1%nat) by lia; vm_compute; reflexivity|].
    split; [rewrite (Hafter 2%nat) by lia; vm_compute; reflexivity|].
    split; [rewrite (Hkept 0%nat) by lia; vm_compute; reflexivity|].
    split; [exact Hgone|].
    split; [rewrite (Hkept 2%nat) by lia; vm_compute; reflexivity|].
    rewrite Hrevoked. vm_compute. reflexivity.
Defined.

(** ** [uploadFiles] *)

Lemma last_cons (v d : Z) (values : list Z) :
  List.last (v :: values) d = List.last values v.
Proof.
  revert v d. induction values as [|v' values IH]; intros v d; [reflexivity|].
  change (List.last (v :: v' :: values) d) with (List.last (v' :: values) d).
  rewrite !IH. reflexivity.
Qed.

Lemma upload_values (i : nat) (v : Z) (values : list Z) (s : State) :
  fold_left (fun s progress => setUploadProgress i progress s) (v :: values) s
  = setUploadProgress i (List.last values v) s.
Proof.
  revert v s. induction values as [|v' values IH]; intros v s; [reflexivity|].
  change (fold_left _ (v :: v' :: values) s)
    with (fold_left (fun s progress => setUploadProgress i progress s)
                    (v' :: values) (setUploadProgress i v s)).
  rewrite IH. unfold setUploadProgress.
  cbn [files isDragging uploadProgress toasts createdURLs revokedURLs].
  rewrite insert_insert_eq, last_cons. reflexivity.
Qed.

Lemma upload_one (i : nat) (s : State) :
  fold_left (fun s progress => setUploadProgress i progress s) progressValues s
  = setUploadProgress i 100 s.
Proof. apply (upload_values i 0%Z). Qed.

Lemma upload_from (n start : nat) (s : State) :
  let s' := fold_left
              (fun s i => fold_left (fun s progress => setUploadProgress i progress s)
                                    progressValues s)
              (seq start n) s in
  files s' = files s /\ toasts s' = toasts s /\ isDragging s' = isDragging s /\
  createdURLs s' = createdURLs s /\ revokedURLs s' = revokedURLs s /\
  (forall i, start <= i < start + n -> uploadProgress s' !! i = Some 100%Z) /\
  (forall i, i < start \/ start + n <= i ->
             uploadProgress s' !! i = uploadProgress s !! i).
Proof.
  revert start s. induction n as [|n IH]; intros start s; cbn [seq fold_left].
  - repeat (split; [reflexivity|]). split; intros i Hi; [lia | reflexivity].
  - rewrite upload_one.
    destruct (IH (S start) (setUploadProgress start 100 s))
      as (H1 & H2 & H3 & H4 & H5 & H6 & H7).
    cbv zeta. repeat (split; [assumption|]). split.
    + intros i Hi. destruct (decide (i = start)) as [-> | Hne].
      * rewrite H7 by lia. cbn [setUploadProgress uploadProgress].
        apply lookup_insert_eq.
      * apply H6. lia.
    + intros i Hi. rewrite H7 by lia. cbn [setUploadProgress uploadProgress].
      apply lookup_insert_ne. lia.
Qed.

(** X7.  When [uploadFiles] has run through, the progress of every index of
    [files] is 100 and no other entry of [uploadProgress] has changed;
    [files] is as before and one success toast has been added, also when
    there is no file at all. *)
Theorem uploadFiles_completes (s : State) :
  let s' := uploadFiles s in
  files s' = files s /\
  (forall i, i < length (files s) -> uploadProgress s' !! i = Some 100%Z) /\
  (forall i, length (files s) <= i -> uploadProgress s' !! i = uploadProgress s !! i) /\
  toasts s' = toasts s ++ [toast_success "All files uploaded successfully!"].
Proof.
  destruct (upload_from (length (files s)) 0 s) as (H1 & H2 & _ & _ & _ & H6 & H7).
  unfold uploadFiles. cbn [files uploadProgress toasts].
  split; [exact H1|]. split; [intros i Hi; apply H6; lia|].
  split; [intros i Hi; apply H7; lia|]. rewrite H2. reflexivity.
Qed.

(** ** The preview URLs *)

(** The object URLs the files in [files] carry as [preview]. *)
Definition previews (s : State) : list nat := omap file_preview (files s).

(** A [File] as the browser hands it over, before the hook has touched it:
    it has no [preview] property. *)
Definition untouched (f : File) : Prop := file_preview f = None.

(** The states the hook reaches when every batch given to [addFiles]
    consists of files the hook has not touched before (as those of a
    [FileList] are). *)
Inductive reachableUntouched (opts : Options) : State -> Prop :=
| untouched_initial : reachableUntouched opts initial
| untouched_call c s s' :
    reachableUntouched opts s ->
    (forall batch, c = call_addFiles batch -> Forall untouched batch) ->
    call opts c s = Some s' ->
    reachableUntouched opts s'.

(** The URLs in use and the URLs revoked are all different from one
    another, and all have been created. *)
Definition disciplined (s : State) : Prop :=
  NoDup (previews s ++ revokedURLs s) /\
  forall u, u ∈ previews s ++ revokedURLs s -> u < createdURLs s.

Lemma fold_scanFile_previews (opts : Options) (batch : list File) (acc : Scan) :
  Forall untouched batch ->
  exists k,
    nextURL (fold_left (scanFile opts) batch acc) = nextURL acc + k /\
    omap file_preview (validFiles (fold_left (scanFile opts) batch acc))
    = omap file_preview (validFiles acc) ++ seq (nextURL acc) k.
Proof.
  intros Hbatch. revert acc.
  induction Hbatch as [|file rest Hfile _ IH]; intros acc.
  - exists 0. cbn [fold_left seq]. split; [lia | symmetry; apply app_nil_r].
  - cbn [fold_left]. destruct (IH (scanFile opts acc file)) as (k & Hnext & Hprev).
    unfold scanFile in Hnext, Hprev |- *.
    destruct (0 <? length (validateFile opts file))%nat.
    + exists k. split; assumption.
    + destruct (startsWith (file_type file) "image/");
        cbn [nextURL validFiles] in Hnext, Hprev |- *.
      * exists (S k). split; [lia|].
        rewrite Hprev, omap_app. cbn [omap list_omap file_preview].
        rewrite <- app_assoc. reflexivity.
      * exists k. split; [exact Hnext|].
        rewrite Hprev, omap_app. cbn [omap list_omap]. rewrite Hfile.
        rewrite app_nil_r. reflexivity.
Qed.

Lemma addFiles_disciplined (opts : Options) (batch : list File) (s : State) :
  Forall untouched batch -> disciplined s -> disciplined (addFiles opts batch s).
Proof.
  intros Hbatch [Hnodup Hcreated].
  destruct (fold_scanFile_previews opts batch (mkScan [] [] (createdURLs s)) Hbatch)
    as (k & Hnext & Hprev).
  fold (scanFiles opts batch (createdURLs s)) in Hnext, Hprev.
  cbn [nextURL validFiles omap list_omap app] in Hnext, Hprev.
  apply NoDup_app in Hnodup as (Hp & Hdisj & Hr).
  assert (Hold : forall u, u ∈ previews s -> u < createdURLs s).
  { intros u Hu. apply Hcreated, elem_of_app. left. exact Hu. }
  assert (Hrev : forall u, u ∈ revokedURLs s -> u < createdURLs s).
  { intros u Hu. apply Hcreated, elem_of_app. right. exact Hu. }
  assert (Hnew : forall u, u ∈ seq (createdURLs s) k ->
                           createdURLs s <= u < createdURLs s + k).
  { intros u Hu. apply elem_of_seq in Hu. lia. }
  unfold disciplined, previews, addFiles.
  destruct (0 <? length _)%nat eqn:Hlen;
    cbn [files revokedURLs createdURLs]; rewrite Hnext.
  - destruct (allowMultiple opts).
    + rewrite omap_app, Hprev. fold (previews s). split.
      * apply NoDup_app. split; [|split; [|exact Hr]].
        -- apply NoDup_app. split; [exact Hp|]. split; [|apply NoDup_seq].
           intros u Hu Hu'. apply Hold in Hu. apply Hnew in Hu'. lia.
        -- intros u Hu Hu'. apply elem_of_app in Hu as [Hu | Hu].
           ++ exact (Hdisj u Hu Hu').
           ++ apply Hnew in Hu. apply Hrev in Hu'. lia.
      * intros u Hu. rewrite !elem_of_app in Hu. destruct Hu as [[Hu | Hu] | Hu].
        -- apply Hold in Hu. lia.
        -- apply Hnew in Hu. lia.
        -- apply Hrev in Hu. lia.
    + rewrite Hprev. split.
      * apply NoDup_app. split; [apply NoDup_seq|]. split; [|exact Hr].
        intros u Hu Hu'. apply Hnew in Hu. apply Hrev in Hu'. lia.
      * intros u Hu. rewrite elem_of_app in Hu. destruct Hu as [Hu | Hu].
        -- apply Hnew in Hu. lia.
        -- apply Hrev in Hu. lia.
  - fold (previews s). split.
    + apply NoDup_app. auto.
    + intros u Hu. apply Hcreated in Hu. lia.
Qed.

Lemma removeFile_disciplined (index : nat) (s s' : State) :
  removeFile index s = Some s' -> disciplined s -> disciplined s'.
Proof.
  unfold removeFile. destruct (files s !! index) as [f|] eqn:Hf; [|discriminate].
  intros [= <-] [Hnodup Hcreated]. unfold disciplined, previews.
  cbn [files revokedURLs createdURLs].
  assert (Hperm : previews s ++ revokedURLs s
                  ≡ₚ omap file_preview (delete index (files s))
                     ++ match file_preview f with
                        | Some u => revokedURLs s ++ [u]
                        | None => revokedURLs s
                        end).
  { unfold previews. rewrite (delete_Permutation _ _ _ Hf) at 1.
    cbn [omap list_omap]. destruct (file_preview f) as [u|]; [|reflexivity].
    cbn [app]. rewrite (Permutation_app_comm (revokedURLs s) [u]).
    cbn [app]. apply Permutation_middle. }
  split.
  - rewrite <- Hperm. exact Hnodup.
  - intros u Hu. apply Hcreated. rewrite Hperm. exact Hu.
Qed.

Lemma clearFiles_disciplined (s : State) : disciplined s -> disciplined (clearFiles s).
Proof.
  intros [Hnodup Hcreated]. unfold disciplined, previews, clearFiles.
  cbn [files revokedURLs createdURLs omap list_omap app]. fold (previews s).
  split.
  - rewrite (Permutation_app_comm (revokedURLs s)). exact Hnodup.
  - intros u Hu. apply Hcreated.
    rewrite (Permutation_app_comm (previews s)). exact Hu.
Qed.

(** X5.  Provided every batch given to [addFiles] consists of files the
    hook has not touched before, in every state the hook reaches: no two
    files in [files] share a preview URL, no URL has been revoked twice, no
    file in [files] has a preview that has been revoked, and every URL in use
    or revoked is one that [URL.createObjectURL] has handed out. *)
Theorem preview_urls_disciplined (opts : Options) (s : State) :
  reachableUntouched opts s ->
  NoDup (previews s) /\
  NoDup (revokedURLs s) /\
  (forall u, u ∈ previews s -> u ∉ revokedURLs s) /\
  (forall u, u ∈ previews s \/ u ∈ revokedURLs s -> u < createdURLs s).
Proof.
  intros Hreach.
  assert (H : disciplined s).
  { induction Hreach as [|c s s' _ IH Hbatch Hcall].
    - split; [constructor | intros u Hu; inversion Hu].
    - destruct c as [batch | index |]; cbn [call] in Hcall.
      + injection Hcall as <-. apply addFiles_disciplined; [|exact IH].
        apply Hbatch. reflexivity.
      + eapply removeFile_disciplined; eassumption.
      + injection Hcall as <-. apply clearFiles_disciplined, IH. }
  destruct H as [Hnodup Hcreated]. apply NoDup_app in Hnodup as (Hp & Hdisj & Hr).
  repeat split; try assumption.
  intros u Hu. apply Hcreated, elem_of_app. exact Hu.
Qed.

(** Two images added to a hook for several images, then the first one
    removed. *)

Lemma preview_urls_disciplined_witness :
  exists s,
    removeFile 0 (addFiles imageOptions [photo "a.png"; photo "b.png"] initial)
    = Some s /\
    previews s = [1] /\ revokedURLs s = [0] /\
    NoDup (previews s) /\ NoDup (revokedURLs s) /\
    (forall u, u ∈ previews s -> u ∉ revokedURLs s) /\
    (forall u, u ∈ previews s \/ u ∈ revokedURLs s -> u < createdURLs s).
Proof.
  eexists. split; [reflexivity|]. split; [reflexivity|]. split; [reflexivity|].
  apply (preview_urls_disciplined imageOptions).
  eapply (untouched_call imageOptions (call_removeFile 0)).
  - eapply (untouched_call imageOptions
              (call_addFiles [photo "a.png"; photo "b.png"])).
    + apply untouched_initial.
    + intros batch [= <-]. repeat constructor.
    + reflexivity.
  - intros batch Hbatch. discriminate Hbatch.
  - reflexivity.
Defined.

End FileUploadMore.

(* ===================================================================== *)
(** * Results on the useAudioRecorder hook                                *)
(* ===================================================================== *)

Module AudioRecorderFacts.
Import AudioRecorder.
Local Open Scope float_scope.
#[local] Set Warnings "-inexact-float".

(** A first recording: the page calls [startRecording], the microphone is
    granted as a stream of one track; the recorder gets handle 1 and the
    timer handle 2. *)
Definition granted : Event := getUserMedia_settled 0 (completed [live]).
Definition started : World := run [call_startRecording; granted] initial.

(** The same with an [<audio>] element mounted from the first render on. *)
Definition startedWithPlayer : World :=
  run [player_mounted true; call_startRecording; granted] initial.

(** ** One event *)

(** An event that leaves [audioUrl] alone runs no effect. *)
Lemma step_same_audioUrl (w : World) (e : Event) :
  audioUrl (handle e w) = audioUrl w -> step w e = handle e w.
Proof. intros H. unfold step. rewrite bool_decide_true by exact H. reflexivity. Qed.

(** Otherwise the clean-up and the effects run. *)
Lemma step_new_audioUrl (w : World) (e : Event) :
  audioUrl (handle e w) <> audioUrl w ->
  step w e = playerEffect (cleanup (audioUrl w) (handle e w)).
Proof. intros H. unfold step. rewrite bool_decide_false by exact H. reflexivity. Qed.

(** What the clean-up and the player effect leave alone. *)
Lemma MediaRecorder_stop_frame (id : nat) (w : World) :
  let w' := MediaRecorder_stop id w in
  isRecording w' = isRecording w /\ recordingTime w' = recordingTime w /\
  audioBlob w' = audioBlob w /\ audioUrl w' = audioUrl w /\
  isPlaying w' = isPlaying w /\ error w' = error w /\
  chunksRef w' = chunksRef w /\ intervals w' = intervals w /\
  mediaRecorderRef w' = mediaRecorderRef w /\ timerRef w' = timerRef w /\
  audioPlayerRef w' = audioPlayerRef w /\ requests w' = requests w.
Proof.
  unfold MediaRecorder_stop. destruct (recorders w !! id) as [r|]; [|repeat split].
  destruct (state r); repeat split.
Qed.

Lemma cleanup_frame (old : option nat) (w : World) :
  let w' := cleanup old w in
  isRecording w' = isRecording w /\ recordingTime w' = recordingTime w /\
  audioBlob w' = audioBlob w /\ audioUrl w' = audioUrl w /\
  isPlaying w' = isPlaying w /\ error w' = error w /\
  chunksRef w' = chunksRef w /\
  mediaRecorderRef w' = mediaRecorderRef w /\ timerRef w' = timerRef w /\
  audioPlayerRef w' = audioPlayerRef w /\ requests w' = requests w.
Proof.
  unfold cleanup.
  set (w1 := match timerRef w with
             | Some id => if (id =? 0)%nat then w else clearInterval (timerRef w) w
             | None => w end).
  assert (H1 : isRecording w1 = isRecording w /\ recordingTime w1 = recordingTime w /\
               audioBlob w1 = audioBlob w /\ audioUrl w1 = audioUrl w /\
               isPlaying w1 = isPlaying w /\ error w1 = error w /\
               chunksRef w1 = chunksRef w /\
               mediaRecorderRef w1 = mediaRecorderRef w /\ timerRef w1 = timerRef w /\
               audioPlayerRef w1 = audioPlayerRef w /\ requests w1 = requests w).
  { subst w1. destruct (timerRef w) as [t|] eqn:Ht; [destruct (t =? 0)%nat|];
      repeat split; simpl; congruence. }
  clearbody w1.
  set (w2 := match mediaRecorderRef w1, currentRecorderState w1 with
             | Some id, Some recording => MediaRecorder_stop id w1
             | _, _ => w1 end).
  assert (H2 : isRecording w2 = isRecording w1 /\ recordingTime w2 = recordingTime w1 /\
               audioBlob w2 = audioBlob w1 /\ audioUrl w2 = audioUrl w1 /\
               isPlaying w2 = isPlaying w1 /\ error w2 = error w1 /\
               chunksRef w2 = chunksRef w1 /\
               mediaRecorderRef w2 = mediaRecorderRef w1 /\ timerRef w2 = timerRef w1 /\
               audioPlayerRef w2 = audioPlayerRef w1 /\ requests w2 = requests w1).
  { subst w2. destruct (mediaRecorderRef w1) as [id|] eqn:Hid; [|repeat split; congruence].
    destruct (currentRecorderState w1) as [[]|]; try (repeat split; congruence).
    pose proof (MediaRecorder_stop_frame id w1) as H. cbv zeta in H.
    destruct H as (?&?&?&?&?&?&?&?&?&?&?&?). repeat split; congruence. }
  clearbody w2.
  destruct H1 as (?&?&?&?&?&?&?&?&?&?&?), H2 as (?&?&?&?&?&?&?&?&?&?&?).
  destruct old; simpl; repeat split; congruence.
Qed.

Lemma playerEffect_frame (w : World) :
  let w' := playerEffect w in
  isRecording w' = isRecording w /\ recordingTime w' = recordingTime w /\
  audioBlob w' = audioBlob w /\ audioUrl w' = audioUrl w /\
  isPlaying w' = isPlaying w /\ error w' = error w /\
  chunksRef w' = chunksRef w /\ recorders w' = recorders w /\
  intervals w' = intervals w /\ stopTasks w' = stopTasks w /\
  mediaRecorderRef w' = mediaRecorderRef w /\ timerRef w' = timerRef w /\
  requests w' = requests w.
Proof. unfold playerEffect. destruct (audioPlayerRef w); repeat split. Qed.

(** The render after an event changes none of the hook's state cells and
    none of its refs but the listeners of the player. *)
Lemma step_frame (w : World) (e : Event) :
  let w' := step w e in
  isRecording w' = isRecording (handle e w) /\
  recordingTime w' = recordingTime (handle e w) /\
  audioBlob w' = audioBlob (handle e w) /\
  audioUrl w' = audioUrl (handle e w) /\
  isPlaying w' = isPlaying (handle e w) /\
  error w' = error (handle e w) /\
  chunksRef w' = chunksRef (handle e w) /\
  mediaRecorderRef w' = mediaRecorderRef (handle e w) /\
  timerRef w' = timerRef (handle e w) /\
  requests w' = requests (handle e w).
Proof.
  unfold step. destruct (bool_decide _); [repeat split|].
  pose proof (playerEffect_frame (cleanup (audioUrl w) (handle e w))) as H1.
  pose proof (cleanup_frame (audioUrl w) (handle e w)) as H2.
  cbv zeta in H1, H2.
  destruct H1 as (?&?&?&?&?&?&?&?&?&?&?&?&?), H2 as (?&?&?&?&?&?&?&?&?&?&?).
  repeat split; congruence.
Qed.

(** ** Calls that do nothing *)

(** C5.  While [isRecording] is true, [startRecording] changes nothing at
    all: not the elapsed time, the running timers, the buffered chunks or
    the sample, and it neither calls [getUserMedia] nor starts a timer. *)
Theorem startRecording_while_recording (w : World) :
  isRecording w = true -> step w call_startRecording = w.
Proof.
  intros Hrec.
  assert (Hcall : handle call_startRecording w = w).
  { unfold handle, startRecording, rendered. simpl. rewrite Hrec. reflexivity. }
  rewrite step_same_audioUrl; rewrite Hcall; reflexivity.
Qed.

Lemma startRecording_while_recording_witness :
  step (run (repeat (interval_fired 2) 7) started) call_startRecording
  = run (repeat (interval_fired 2) 7) started.
Proof. apply startRecording_while_recording. vm_compute. reflexivity. Defined.

(** ** Failure to get the microphone *)

(** C8.  When the [getUserMedia] call of a pending [startRecording] is
    rejected, for a denied permission or for a missing device, the hook
    records the error and shows the toast, and that is all: [isRecording],
    the elapsed time and the sample are as before, no recorder is created
    and no timer started, and [getUserMedia] is not called again.  A
    session that was not recording is in [Error]. *)
Theorem acquisition_failure
    (w : World) (i : nat) (c : Closure) (permissionDenied : bool) :
  requests w !! i = Some c ->
  let w' := step w (getUserMedia_settled i (getUserMedia_rejected permissionDenied)) in
  error w' = Some "Microphone access denied or not available" /\
  toasts w' = toasts w ++ [toast_error "Please allow microphone access to record audio"] /\
  isRecording w' = isRecording w /\
  recordingTime w' = recordingTime w /\
  audioBlob w' = audioBlob w /\
  audioUrl w' = audioUrl w /\
  mediaRecorderRef w' = mediaRecorderRef w /\
  recorders w' = recorders w /\
  intervals w' = intervals w /\
  timerRef w' = timerRef w /\
  requests w' = delete i (requests w) /\
  getUserMediaCalls w' = getUserMediaCalls w /\
  (isRecording w = false -> session w' = Error).
Proof.
  intros Hreq w'.
  assert (Hcall : handle (getUserMedia_settled i (getUserMedia_rejected permissionDenied)) w
                  = initializeRecorder_caught (set_requests (delete i (requests w)) w)).
  { unfold handle, startRecording_resume. rewrite Hreq. reflexivity. }
  subst w'. rewrite step_same_audioUrl; rewrite Hcall; [|reflexivity].
  repeat split. intros Hidle. unfold session. simpl. rewrite Hidle. reflexivity.
Qed.

Lemma acquisition_failure_witness :
  let w := run [call_startRecording] initial in
  let w' := step w (getUserMedia_settled 0 (getUserMedia_rejected true)) in
  error w' = Some "Microphone access denied or not available" /\
  toasts w' = toasts w ++ [toast_error "Please allow microphone access to record audio"] /\
  isRecording w' = isRecording w /\
  recordingTime w' = recordingTime w /\
  audioBlob w' = audioBlob w /\
  audioUrl w' = audioUrl w /\
  mediaRecorderRef w' = mediaRecorderRef w /\
  recorders w' = recorders w /\
  intervals w' = intervals w /\
  timerRef w' = timerRef w /\
  requests w' = delete 0%nat (requests w) /\
  getUserMediaCalls w' = getUserMediaCalls w /\
  (isRecording w = false -> session w' = Error).
Proof.
  apply (acquisition_failure (run [call_startRecording] initial) 0
           (mkClosure false) true).
  vm_compute. reflexivity.
Defined.

(** ** Playback *)

(** With a sample and a player on which the effect on [[audioUrl]] has
    registered the hook's listeners, [playAudio] followed by the player's
    [ended] event leaves [isPlaying] false, with no second call of
    [playAudio]; from [isPlaying = false] the call in between had set it to
    true.  Without a sample ([audioUrl] is null) [playAudio] changes
    nothing.  The listeners are a hypothesis here: the hook registers them
    only when [audioUrl] changes. *)
Theorem playAudio_then_ended (w : World) :
  (forall url player,
      audioUrl w = Some url ->
      audioPlayerRef w = Some player ->
      listening player = true ->
      (isPlaying w = false -> isPlaying (step w call_playAudio) = true) /\
      isPlaying (step (step w call_playAudio) player_ended) = false) /\
  (audioUrl w = None -> step w call_playAudio = w).
Proof.
  split.
  - intros url player Hurl Href Hlisten.
    set (played := set_audioPlayerRef
                     (Some (mkAudio (isPlaying w) (currentTime player) (listening player)))
                     (setIsPlaying (negb (isPlaying w)) w)).
    assert (Hcall : step w call_playAudio = played).
    { assert (Hplay : handle call_playAudio w = played).
      { unfold handle, playAudio, played. rewrite Hurl, Href.
        destruct (isPlaying w); reflexivity. }
      rewrite step_same_audioUrl; rewrite Hplay; reflexivity. }
    rewrite Hcall. split.
    + intros Hpaused. unfold played. simpl. rewrite Hpaused. reflexivity.
    + assert (Hended : handle player_ended played = handleEnded played).
      { unfold handle, played. simpl. rewrite Hlisten. reflexivity. }
      rewrite step_same_audioUrl; rewrite Hended; reflexivity.
  - intros Hurl.
    assert (Hplay : handle call_playAudio w = w).
    { unfold handle, playAudio. rewrite Hurl. reflexivity. }
    rewrite step_same_audioUrl; rewrite Hplay; reflexivity.
Qed.

Lemma playAudio_then_ended_witness :
  let w := run [player_mounted true; call_startRecording; granted;
                call_stopRecording; recorder_stopTask 1 5] initial in
  isPlaying (step w call_playAudio) = true /\
  isPlaying (step (step w call_playAudio) player_ended) = false /\
  step initial call_playAudio = initial.
Proof.
  intros w.
  destruct (proj1 (playAudio_then_ended w) 0%nat (mkAudio true 0 true))
    as [Hplay Hended]; try (vm_compute; reflexivity).
  split; [|split].
  - apply Hplay. vm_compute. reflexivity.
  - exact Hended.
  - apply (proj2 (playAudio_then_ended initial)). reflexivity.
Defined.

(** A sample recorded on the audio analysis page, whose player element is
    rendered under the recording tab only and only while there is a sample:
    the element is mounted by the render that shows the new [audioUrl], and
    the effect of that render registers the listeners. *)
Definition sampleShown : World :=
  run [call_startRecording; granted; call_stopRecording; recorder_stopTask 1 5;
       player_mounted true] initial.

(** The same after a visit to the upload tab and back: the element was
    taken out and a new one put in, [audioUrl] never changed, and so no
    effect ran for the new element. *)
Definition tabSwitched : World :=
  run [player_unmounted; player_mounted false] sampleShown.

(** C6, at a sample whose player element was remounted.  After a visit to
    the upload tab the session is still Stopped, with its sample, its object
    URL and a player in [audioPlayerRef], and nothing plays.  [playAudio]
    starts the player and sets [isPlaying]; the player's [ended] event then
    finds no listener of the hook, and [isPlaying] stays true.  Before the
    visit the same two events leave [isPlaying] false. *)
Theorem ended_after_remount_keeps_isPlaying :
  session tabSwitched = Stopped /\
  audioBlob tabSwitched = audioBlob sampleShown /\
  audioUrl tabSwitched = audioUrl sampleShown /\
  is_Some (audioUrl tabSwitched) /\
  audioPlayerRef tabSwitched = Some newAudio /\
  isPlaying tabSwitched = false /\
  isPlaying (run [call_playAudio] tabSwitched) = true /\
  isPlaying (run [call_playAudio; player_ended] tabSwitched) = true /\
  isPlaying (run [call_playAudio; player_ended] sampleShown) = false.
Proof.
  split; [vm_compute; reflexivity|].
  split; [vm_compute; reflexivity|].
  split; [vm_compute; reflexivity|].
  split; [vm_compute; eexists; reflexivity|].
  split; [vm_compute; reflexivity|].
  split; [vm_compute; reflexivity|].
  split; [vm_compute; reflexivity|].
  split; vm_compute; reflexivity.
Qed.

(** ** Stopping by hand *)


Lemma stopRecording_recording (w : World) (id : nat) (r : MediaRecorder) :
  isRecording w = true ->
  mediaRecorderRef w = Some id ->
  recorders w !! id = Some r ->
  state r = recording ->
  step w call_stopRecording =
  toast (toast_success "Recording completed!")
    (set_stopTasks (stopTasks w ++ [id])
       (set_recorders (<[id := mkRecorder inactive (stream r)]> (recorders w))
          (clearInterval (timerRef w) (setIsRecording false w)))).
Proof.
  intros Hrec Href Hr Hstate.
  assert (Hcall : handle call_stopRecording w =
    toast (toast_success "Recording completed!")
      (set_stopTasks (stopTasks w ++ [id])
         (set_recorders (<[id := mkRecorder inactive (stream r)]> (recorders w))
            (clearInterval (timerRef w) (setIsRecording false w))))).
  { unfold handle, stopRecording, rendered. simpl. rewrite Hrec, Href. simpl.
    unfold currentRecorderState. simpl. rewrite Href, Hr. simpl.
    rewrite Hstate. unfold MediaRecorder_stop. simpl. rewrite Hr, Hstate. reflexivity. }
  rewrite step_same_audioUrl; rewrite Hcall; reflexivity.
Qed.






(** ** The elapsed time *)

(** What a tick stores, as a function of the time before it. *)
Definition nextTime (prev : float) : float :=
  let newTime := prev + 0.1 in
  if 3.0 <=? newTime then 3.0 else newTime.

(** The times [n] ticks go through from [t]. *)
Fixpoint times (n : nat) (t : float) : list float :=
  match n with
  | O => [t]
  | S n => t :: times n (nextTime t)
  end.

(** Every value [recordingTime] takes: 0, the 29 sums of 0.1 below 3.0
    (not multiples of 0.1, the sums are rounded), and 3.0. *)
Definition tickValues : list float := Eval vm_compute in times 30 0.

Lemma tickValues_closed (t : float) :
  In t tickValues ->
  In (nextTime t) tickValues /\ (t <=? 3.0) = true /\
  (nextTime t = 3.0 \/ nextTime t = t + 0.1 /\ (t + 0.1 <? 3.0) = true).
Proof.
  unfold tickValues. intros H.
  repeat (destruct H as [<- | H];
          [vm_compute; split; [tauto | split; [reflexivity | tauto]] | ]).
  destruct H.
Qed.

Lemma stopRecording_frame (c : Closure) (w : World) :
  let w' := stopRecording c w in
  recordingTime w' = recordingTime w /\
  audioBlob w' = audioBlob w /\ audioUrl w' = audioUrl w /\
  isPlaying w' = isPlaying w /\ error w' = error w /\
  chunksRef w' = chunksRef w /\
  mediaRecorderRef w' = mediaRecorderRef w /\ timerRef w' = timerRef w /\
  audioPlayerRef w' = audioPlayerRef w /\ requests w' = requests w.
Proof.
  unfold stopRecording. destruct (_ || _); [repeat split|]. cbv zeta.
  set (w1 := clearInterval (timerRef (setIsRecording false w)) (setIsRecording false w)).
  destruct (mediaRecorderRef w1) as [id|]; [|repeat split].
  destruct (currentRecorderState w1) as [[]|]; try solve [repeat split].
  pose proof (MediaRecorder_stop_frame id w1) as H. cbv zeta in H.
  destruct H as (?&?&?&?&?&?&?&?&?&?&?&?).
  unfold toast. simpl. repeat split; assumption.
Qed.

(** When the closure was made in a render with [isRecording = false],
    [stopRecording] returns at its first line. *)
Lemma stopRecording_stale (c : Closure) (w : World) :
  closure_isRecording c = false -> stopRecording c w = w.
Proof. intros Hc. unfold stopRecording. rewrite Hc. reflexivity. Qed.

Lemma MediaRecorder_start_frame (id : nat) (w : World) :
  let w' := MediaRecorder_start id w in
  isRecording w' = isRecording w /\ recordingTime w' = recordingTime w /\
  audioBlob w' = audioBlob w /\ audioUrl w' = audioUrl w /\
  isPlaying w' = isPlaying w /\ error w' = error w /\
  chunksRef w' = chunksRef w /\ intervals w' = intervals w /\
  mediaRecorderRef w' = mediaRecorderRef w /\ timerRef w' = timerRef w /\
  audioPlayerRef w' = audioPlayerRef w /\ requests w' = requests w /\
  nextId w' = nextId w /\ stopTasks w' = stopTasks w.
Proof.
  unfold MediaRecorder_start. destruct (recorders w !! id); repeat split.
Qed.

Lemma start_current_frame (w : World) :
  let w' := match mediaRecorderRef w with
            | Some id => MediaRecorder_start id w
            | None => w
            end in
  isRecording w' = isRecording w /\ recordingTime w' = recordingTime w /\
  audioBlob w' = audioBlob w /\ audioUrl w' = audioUrl w /\
  isPlaying w' = isPlaying w /\ error w' = error w /\
  chunksRef w' = chunksRef w /\ intervals w' = intervals w /\
  mediaRecorderRef w' = mediaRecorderRef w /\ timerRef w' = timerRef w /\
  audioPlayerRef w' = audioPlayerRef w /\ requests w' = requests w /\
  nextId w' = nextId w /\ stopTasks w' = stopTasks w.
Proof.
  cbv zeta. destruct (mediaRecorderRef w) as [id|] eqn:Hid.
  - pose proof (MediaRecorder_start_frame id w) as H. cbv zeta in H.
    rewrite Hid in H. exact H.
  - repeat split; congruence.
Qed.

Lemma startRecording_initialized_state (c : Closure) (w : World) :
  let w' := startRecording_initialized c w in
  isRecording w' = true /\ recordingTime w' = 0 /\
  audioBlob w' = None /\ audioUrl w' = None /\
  isPlaying w' = isPlaying w /\ error w' = error w /\
  chunksRef w' = chunksRef w /\
  mediaRecorderRef w' = mediaRecorderRef w /\
  timerRef w' = Some (nextId w) /\
  intervals w' = <[nextId w := c]> (intervals w) /\
  requests w' = requests w /\
  audioPlayerRef w' = audioPlayerRef w.
Proof.
  unfold startRecording_initialized, toast. cbv zeta.
  pose proof (start_current_frame
                (setIsRecording true
                   (setAudioUrl None (setAudioBlob None (setRecordingTime 0 w))))) as H.
  cbv zeta in H. revert H.
  generalize (match mediaRecorderRef (setIsRecording true
                       (setAudioUrl None (setAudioBlob None (setRecordingTime 0 w)))) with
              | Some id => MediaRecorder_start id (setIsRecording true
                       (setAudioUrl None (setAudioBlob None (setRecordingTime 0 w))))
              | None => setIsRecording true
                       (setAudioUrl None (setAudioBlob None (setRecordingTime 0 w)))
              end).
  intros w1 H. simpl in H. destruct H as (?&?&?&?&?&?&?&?&?&?&?&?&?&?).
  simpl. repeat split; congruence.
Qed.

(** An event keeps the elapsed time, or zeroes it, or is a tick. *)
Lemma recordingTime_step (w : World) (e : Event) :
  recordingTime (step w e) = recordingTime w \/
  recordingTime (step w e) = 0 \/
  recordingTime (step w e) = nextTime (recordingTime w).
Proof.
  destruct (step_frame w e) as (_ & -> & _).
  destruct e as [ | | | | i outcome | id | id data | id data | | | withEffect | ];
    unfold handle.
  - unfold startRecording. destruct (closure_isRecording _); left; reflexivity.
  - left. apply stopRecording_frame.
  - unfold playAudio. destruct (audioUrl w), (audioPlayerRef w), (isPlaying w);
      left; reflexivity.
  - right. left. unfold resetRecording. cbv zeta.
    match goal with |- context [setRecordingTime 0 ?x] => generalize x end.
    intros w0. simpl. destruct (audioPlayerRef w0); reflexivity.
  - unfold startRecording_resume. destruct (requests w !! i); [|left; reflexivity].
    destruct outcome; [right; left | left; reflexivity | left; reflexivity].
    apply startRecording_initialized_state.
  - destruct (intervals w !! id) as [c|]; [|left; reflexivity].
    right. right. unfold tickUpdater, nextTime.
    destruct (3.0 <=? _); reflexivity.
  - destruct (recorders w !! id) as [r|]; [|left; reflexivity].
    destruct (state r); try (left; reflexivity).
    unfold ondataavailable. destruct (0 <? data)%Z; left; reflexivity.
  - destruct (bool_decide _); [|left; reflexivity].
    left. unfold onstop, ondataavailable.
    destruct (0 <? data)%Z; simpl; destruct (recorders w !! id); reflexivity.
  - destruct (audioPlayerRef w) as [p|]; [destruct (listening p)|]; left; reflexivity.
  - destruct (audioPlayerRef w) as [p|]; [destruct (listening p)|]; left; reflexivity.
  - destruct withEffect; left; reflexivity.
  - left. reflexivity.
Qed.

Lemma run_snoc (events : list Event) (e : Event) (w : World) :
  run (events ++ [e]) w = step (run events w) e.
Proof. unfold run. rewrite fold_left_app. reflexivity. Qed.

Lemma recordingTime_tickValues (events : list Event) :
  In (recordingTime (run events initial)) tickValues.
Proof.
  induction events as [|e events IH] using rev_ind.
  - left. reflexivity.
  - rewrite run_snoc.
    destruct (recordingTime_step (run events initial) e) as [-> | [-> | ->]].
    + exact IH.
    + left. reflexivity.
    + apply tickValues_closed, IH.
Qed.

(** C4.  In every state the hook reaches, the elapsed time is at most 3.0,
    and a tick of a running timer stores either the old time plus 0.1,
    which is then below 3.0, or exactly 3.0. *)
Theorem recordingTime_within_deadline (events : list Event) :
  let w := run events initial in
  (recordingTime w <=? 3.0) = true /\
  forall id c,
    intervals w !! id = Some c ->
    let w' := step w (interval_fired id) in
    recordingTime w' = recordingTime w + 0.1 /\ (recordingTime w + 0.1 <? 3.0) = true
    \/ recordingTime w' = 3.0.
Proof.
  intros w.
  destruct (tickValues_closed _ (recordingTime_tickValues events))
    as (_ & Hle & Hnext).
  fold w in Hle, Hnext. split; [exact Hle|].
  intros id c Hid w'.
  assert (Htick : recordingTime w' = nextTime (recordingTime w)).
  { subst w'. destruct (step_frame w (interval_fired id)) as (_ & -> & _).
    unfold handle. rewrite Hid. unfold tickUpdater, nextTime.
    destruct (3.0 <=? _); reflexivity. }
  rewrite Htick. destruct Hnext as [H | H]; [right | left]; exact H.
Qed.

Lemma recordingTime_within_deadline_witness :
  let w := run ([call_startRecording; granted] ++ repeat (interval_fired 2) 29)
               initial in
  (recordingTime w <=? 3.0) = true /\
  recordingTime (step w (interval_fired 2)) = 3.0.
Proof.
  pose proof (recordingTime_within_deadline
                ([call_startRecording; granted] ++ repeat (interval_fired 2) 29))
    as H.
  cbv zeta in *. destruct H as [Hle Htick].
  split; [exact Hle|].
  destruct (Htick 2%nat (mkClosure false)) as [[_ Hlt] | H3].
  - vm_compute. reflexivity.
  - vm_compute in Hlt. discriminate.
  - exact H3.
Defined.

(** ** The timer's [stopRecording] *)

(** Every running timer and every pending [startRecording] belongs to a
    render in which [isRecording] was false: [startRecording] returns at
    its guard otherwise. *)
Definition stale (w : World) : Prop :=
  (forall id c, intervals w !! id = Some c -> closure_isRecording c = false) /\
  (forall c, In c (requests w) -> closure_isRecording c = false).

(** [w'] runs no timer that [w] does not run. *)
Definition fewer_intervals (w' w : World) : Prop :=
  forall id c, intervals w' !! id = Some c -> intervals w !! id = Some c.

Lemma fewer_intervals_refl (w' w : World) :
  intervals w' = intervals w -> fewer_intervals w' w.
Proof. intros H id c. rewrite H. auto. Qed.

Lemma fewer_intervals_clear (t : option nat) (w' w : World) :
  intervals w' = match t with
                 | Some i => delete i (intervals w)
                 | None => intervals w
                 end ->
  fewer_intervals w' w.
Proof.
  intros H id c. rewrite H. destruct t as [i|]; [|auto].
  intros Hl. apply lookup_delete_Some in Hl. tauto.
Qed.

Lemma stopRecording_fewer_intervals (c : Closure) (w : World) :
  fewer_intervals (stopRecording c w) w.
Proof.
  unfold stopRecording. destruct (_ || _); [apply fewer_intervals_refl; reflexivity|].
  cbv zeta.
  set (w1 := clearInterval (timerRef (setIsRecording false w)) (setIsRecording false w)).
  apply (fewer_intervals_clear (timerRef w)).
  destruct (mediaRecorderRef w1) as [id|]; [|reflexivity].
  destruct (currentRecorderState w1) as [[]|]; try reflexivity.
  pose proof (MediaRecorder_stop_frame id w1) as H. cbv zeta in H.
  destruct H as (_&_&_&_&_&_&_&H&_). unfold toast. simpl. rewrite H. reflexivity.
Qed.

Lemma cleanup_fewer_intervals (old : option nat) (w : World) :
  fewer_intervals (cleanup old w) w.
Proof.
  unfold cleanup.
  set (w1 := match timerRef w with
             | Some id => if (id =? 0)%nat then w else clearInterval (timerRef w) w
             | None => w end).
  assert (H1 : fewer_intervals w1 w).
  { subst w1. destruct (timerRef w) as [t|] eqn:Ht;
      [destruct (t =? 0)%nat|]; try (apply fewer_intervals_refl; reflexivity).
    apply (fewer_intervals_clear (Some t)). reflexivity. }
  clearbody w1.
  set (w2 := match mediaRecorderRef w1, currentRecorderState w1 with
             | Some id, Some recording => MediaRecorder_stop id w1
             | _, _ => w1 end).
  assert (H2 : intervals w2 = intervals w1).
  { subst w2. destruct (mediaRecorderRef w1) as [id|]; [|reflexivity].
    destruct (currentRecorderState w1) as [[]|]; try reflexivity.
    pose proof (MediaRecorder_stop_frame id w1) as H. cbv zeta in H. tauto. }
  clearbody w2. intros id c Hl. apply H1. rewrite <- H2.
  destruct old; exact Hl.
Qed.

(** A timer that runs after an event ran before it, or is the new timer
    of a [startRecording] that was pending. *)
Lemma intervals_handle (w : World) (e : Event) (id : nat) (c : Closure) :
  intervals (handle e w) !! id = Some c ->
  intervals w !! id = Some c \/ In c (requests w).
Proof.
  destruct e as [ | | | | i outcome | t | r data | r data | | | withEffect | ];
    unfold handle.
  - unfold startRecording. destruct (closure_isRecording _); auto.
  - intros H. left. apply (stopRecording_fewer_intervals _ _ _ _ H).
  - unfold playAudio. destruct (audioUrl w), (audioPlayerRef w), (isPlaying w); auto.
  - unfold resetRecording. cbv zeta.
    assert (Hs : fewer_intervals
                   (if isRecording w then stopRecording (mkClosure (isRecording w)) w else w) w).
    { destruct (isRecording w); [apply stopRecording_fewer_intervals|].
      apply fewer_intervals_refl. reflexivity. }
    revert Hs. generalize (if isRecording w
                           then stopRecording (mkClosure (isRecording w)) w else w).
    intros w0 Hs H. left. apply Hs. revert H. simpl.
    destruct (audioPlayerRef w0); auto.
  - unfold startRecording_resume. destruct (requests w !! i) as [c'|] eqn:Hreq; [|auto].
    destruct outcome; [|auto|auto].
    destruct (startRecording_initialized_state c'
                (initializeRecorder_completed stream0
                   (set_requests (delete i (requests w)) w)))
      as (_&_&_&_&_&_&_&_&_&Hint&_).
    rewrite Hint. simpl. intros H. apply lookup_insert_Some in H as [[_ <-] | [_ H]].
    + right. apply list_elem_of_In. eapply list_elem_of_lookup_2, Hreq.
    + auto.
  - destruct (intervals w !! t) as [c'|]; [|auto].
    unfold tickUpdater. destruct (3.0 <=? _); [|auto].
    intros H. left. apply (stopRecording_fewer_intervals c' w). exact H.
  - destruct (recorders w !! r) as [rec|]; [|auto].
    destruct (state rec); auto. unfold ondataavailable. destruct (0 <? data)%Z; auto.
  - destruct (bool_decide _); [|auto].
    unfold onstop, ondataavailable.
    destruct (0 <? data)%Z; simpl; destruct (recorders w !! r); auto.
  - destruct (audioPlayerRef w) as [p|]; [destruct (listening p)|]; auto.
  - destruct (audioPlayerRef w) as [p|]; [destruct (listening p)|]; auto.
  - destruct withEffect; auto.
  - auto.
Qed.

Lemma intervals_step (w : World) (e : Event) (id : nat) (c : Closure) :
  intervals (step w e) !! id = Some c ->
  intervals w !! id = Some c \/ In c (requests w).
Proof.
  unfold step. destruct (bool_decide _); [apply intervals_handle|].
  intros H. apply (intervals_handle w e id c).
  apply (cleanup_fewer_intervals (audioUrl w)).
  destruct (playerEffect_frame (cleanup (audioUrl w) (handle e w)))
    as (_&_&_&_&_&_&_&_&Hi&_).
  rewrite <- Hi. exact H.
Qed.

(** A pending [startRecording] after an event was pending before it, or
    is the call just made, which passed the guard. *)
Lemma requests_step (w : World) (e : Event) (c : Closure) :
  In c (requests (step w e)) ->
  In c (requests w) \/ c = rendered w /\ isRecording w = false.
Proof.
  destruct (step_frame w e) as (_&_&_&_&_&_&_&_&_&->).
  destruct e as [ | | | | i outcome | t | r data | r data | | | withEffect | ];
    unfold handle.
  - unfold startRecording, rendered. simpl.
    destruct (isRecording w); [auto|]. simpl.
    intros H. apply in_app_or in H as [H | [<- | []]]; auto.
  - intros H. left. destruct (stopRecording_frame (rendered w) w) as (_&_&_&_&_&_&_&_&_&Hr).
    rewrite <- Hr. exact H.
  - unfold playAudio. destruct (audioUrl w), (audioPlayerRef w), (isPlaying w); auto.
  - unfold resetRecording. cbv zeta.
    assert (Hs : requests (if isRecording w
                           then stopRecording (mkClosure (isRecording w)) w else w)
                 = requests w).
    { destruct (isRecording w); [apply stopRecording_frame | reflexivity]. }
    revert Hs. generalize (if isRecording w
                           then stopRecording (mkClosure (isRecording w)) w else w).
    intros w0 Hs. simpl. destruct (audioPlayerRef w0); simpl; rewrite Hs; auto.
  - unfold startRecording_resume. destruct (requests w !! i) as [c'|]; [|auto].
    assert (Hdel : In c (delete i (requests w)) -> In c (requests w)).
    { intros H. apply list_elem_of_In. apply list_elem_of_In in H.
      eapply list_elem_of_delete_inv, H. }
    destruct outcome; [|simpl; auto|simpl; auto].
    destruct (startRecording_initialized_state c'
                (initializeRecorder_completed stream0
                   (set_requests (delete i (requests w)) w)))
      as (_&_&_&_&_&_&_&_&_&_&Hr&_).
    rewrite Hr. simpl. auto.
  - destruct (intervals w !! t) as [c'|]; [|auto].
    unfold tickUpdater. destruct (3.0 <=? _); [|auto]. simpl.
    destruct (stopRecording_frame c' w) as (_&_&_&_&_&_&_&_&_&Hr).
    rewrite Hr. auto.
  - destruct (recorders w !! r) as [rec|]; [|auto].
    destruct (state rec); auto. unfold ondataavailable. destruct (0 <? data)%Z; auto.
  - destruct (bool_decide _); [|auto].
    unfold onstop, ondataavailable.
    destruct (0 <? data)%Z; simpl; destruct (recorders w !! r); auto.
  - destruct (audioPlayerRef w) as [p|]; [destruct (listening p)|]; auto.
  - destruct (audioPlayerRef w) as [p|]; [destruct (listening p)|]; auto.
  - destruct withEffect; auto.
  - auto.
Qed.

Lemma stale_step (w : World) (e : Event) : stale w -> stale (step w e).
Proof.
  intros [Hint Hreq]. split.
  - intros id c H. apply intervals_step in H as [H | H]; eauto.
  - intros c H. apply requests_step in H as [H | [-> H]]; auto.
Qed.

Lemma stale_run (events : list Event) : stale (run events initial).
Proof.
  induction events as [|e events IH] using rev_ind.
  - split; [intros id c H; simpl in H; rewrite lookup_empty in H; discriminate
           | intros c []].
  - rewrite run_snoc. apply stale_step, IH.
Qed.

(** In every state the hook reaches, a tick of a running timer changes
    the elapsed time and nothing else: the [stopRecording] it calls at the
    deadline is the one of a render with [isRecording = false] and returns
    at once, so the hook goes on recording and the timer goes on firing. *)
Lemma interval_fired_only_sets_time (events : list Event) (id : nat) (c : Closure) :
  let w := run events initial in
  intervals w !! id = Some c ->
  step w (interval_fired id) = setRecordingTime (nextTime (recordingTime w)) w.
Proof.
  intros w Hid. destruct (stale_run events) as [Hstale _]. fold w in Hstale.
  assert (Hcall : handle (interval_fired id) w
                  = setRecordingTime (nextTime (recordingTime w)) w).
  { unfold handle. rewrite Hid. unfold tickUpdater, nextTime.
    rewrite (stopRecording_stale c w (Hstale id c Hid)).
    destruct (3.0 <=? _); reflexivity. }
  rewrite step_same_audioUrl; rewrite Hcall; reflexivity.
Qed.

(** A first recording after 30 ticks of its timer: the 30th sum reaches
    the deadline. *)
Definition atDeadline : World := run (repeat (interval_fired 2) 30) started.

Lemma atDeadline_tick : step atDeadline (interval_fired 2) = atDeadline.
Proof. vm_compute. reflexivity. Qed.

Lemma atDeadline_ticks (n : nat) :
  run (repeat (interval_fired 2) n) atDeadline = atDeadline.
Proof.
  induction n as [|n IH]; [reflexivity|].
  change (run (repeat (interval_fired 2) (S n)) atDeadline)
    with (run (repeat (interval_fired 2) n) (step atDeadline (interval_fired 2))).
  rewrite atDeadline_tick. exact IH.
Qed.

(** C1, at a first recording that nobody stops.  After 30 ticks the
    elapsed time is exactly 3.0, but the hook is still recording: the
    [stopRecording] the timer calls belongs to the render before the
    recording ([isRecording = false]) and returns at its first line.
    [isRecording] stays true, the timer stays registered, the recorder
    stays in state [recording], no stop task is queued and no sample is
    stored; every later tick finds the same and leaves the state as it
    is. *)
Theorem auto_stop_leaves_recording_running :
  recordingTime atDeadline = 3.0 /\
  isRecording atDeadline = true /\
  session atDeadline = Recording /\
  intervals atDeadline !! 2%nat = Some (mkClosure false) /\
  currentRecorderState atDeadline = Some recording /\
  stopTasks atDeadline = [] /\
  audioBlob atDeadline = None /\
  forall n, run (repeat (interval_fired 2) n) atDeadline = atDeadline.
Proof.
  repeat (split; [vm_compute; reflexivity|]). exact atDeadline_ticks.
Qed.

(** ** Reset *)

(** A [stopRecording] of a render with [isRecording = true] clears the
    flag, provided a recorder was ever created. *)
Lemma stopRecording_isRecording (c : Closure) (w : World) :
  closure_isRecording c = true ->
  is_Some (mediaRecorderRef w) ->
  isRecording (stopRecording c w) = false.
Proof.
  intros Hc [id Hid]. unfold stopRecording. rewrite Hc, Hid.
  rewrite bool_decide_true by (eexists; reflexivity).
  cbn [negb orb]. cbv zeta.
  set (w1 := clearInterval _ _).
  assert (H1 : isRecording w1 = false) by reflexivity. clearbody w1.
  change (isRecording (toast ?t ?x)) with (isRecording x).
  destruct (mediaRecorderRef w1) as [id'|]; [|exact H1].
  destruct (currentRecorderState w1) as [[]|]; try exact H1.
  destruct (MediaRecorder_stop_frame id' w1) as (->&_). exact H1.
Qed.

(** Right after [resetRecording] returns, whatever the state before (a
    recording hook has a recorder in [mediaRecorderRef]): not recording,
    elapsed time 0, no sample, no error, not playing, and the player, if
    one is attached, paused at position 0. *)
Lemma resetRecording_returns (w : World) :
  (isRecording w = true -> is_Some (mediaRecorderRef w)) ->
  let w' := step w call_resetRecording in
  isRecording w' = false /\ recordingTime w' = 0 /\
  audioBlob w' = None /\ audioUrl w' = None /\
  error w' = None /\ isPlaying w' = false /\
  session w' = Idle.
Proof.
  intros Href w'.
  destruct (step_frame w call_resetRecording) as (F1&F2&F3&F4&F5&F6&_).
  fold w' in F1, F2, F3, F4, F5, F6.
  assert (Hs : isRecording (if isRecording w
                            then stopRecording (mkClosure (isRecording w)) w else w)
               = false).
  { destruct (isRecording w) eqn:Hrec; [|exact Hrec].
    apply stopRecording_isRecording; [reflexivity | exact (Href eq_refl)]. }
  assert (Hh : isRecording (handle call_resetRecording w) = false /\
               recordingTime (handle call_resetRecording w) = 0 /\
               audioBlob (handle call_resetRecording w) = None /\
               audioUrl (handle call_resetRecording w) = None /\
               error (handle call_resetRecording w) = None /\
               isPlaying (handle call_resetRecording w) = false).
  { unfold handle, resetRecording. cbv zeta. revert Hs.
    generalize (if isRecording w
                then stopRecording (mkClosure (isRecording w)) w else w).
    intros w0 Hs. simpl. destruct (audioPlayerRef w0); simpl; repeat split; exact Hs. }
  destruct Hh as (H1&H2&H3&H4&H5&H6).
  assert (Hall : isRecording w' = false /\ recordingTime w' = 0 /\
                 audioBlob w' = None /\ audioUrl w' = None /\
                 error w' = None /\ isPlaying w' = false)
    by (repeat split; congruence).
  destruct Hall as (A1&A2&A3&A4&A5&A6). repeat split; try assumption.
  unfold session. rewrite A1, A5, A3. reflexivity.
Qed.

(** A recording of 1.2 seconds with one chunk of 640 bytes buffered. *)
Definition recordingWithChunk : World :=
  run (repeat (interval_fired 2) 12 ++ [recorder_dataavailable 1 640]) started.

(** C3, at a reset during a recording.  [resetRecording] calls
    [stopRecording], which stops the recorder, and clears the sample; the
    state it returns in is [Idle].  The recorder's stop task, which that
    call has queued, then runs [onstop], which stores the assembled blob and
    its object URL: the session ends with a sample (and elapsed time 0),
    not in [Idle] without one. *)
Theorem resetRecording_while_recording_gets_sample_back :
  let w1 := step recordingWithChunk call_resetRecording in
  let w2 := step w1 (recorder_stopTask 1 320) in
  session recordingWithChunk = Recording /\
  session w1 = Idle /\ audioBlob w1 = None /\ stopTasks w1 = [1%nat] /\
  audioBlob w2 = Some (mkBlob [640; 320]%Z "audio/webm") /\
  audioUrl w2 = Some 0%nat /\
  recordingTime w2 = 0 /\
  session w2 = Stopped.
Proof. vm_compute. repeat split; reflexivity. Qed.

End AudioRecorderFacts.

(* ===================================================================== *)
(** * More on the useAudioRecorder hook                                   *)
(* ===================================================================== *)

Module AudioRecorderMore.
Import AudioRecorder AudioRecorderFacts.
Local Open Scope float_scope.
#[local] Set Warnings "-inexact-float".

(** ** Ticks *)

(** X8.  In every state the hook reaches, the closure of a running timer
    was made in a render with [isRecording = false], and a tick of that timer
    changes the elapsed time only: it is the old time plus 0.1, or 3.0 from
    the deadline on, and [isRecording], the timers, the recorders, the queued
    stop tasks and the sample are what they were.  No tick ever stops a
    recording. *)
Theorem tick_changes_time_only (events : list Event) (id : nat) (c : Closure) :
  let w := run events initial in
  intervals w !! id = Some c ->
  let w' := step w (interval_fired id) in
  closure_isRecording c = false /\
  recordingTime w' = nextTime (recordingTime w) /\
  isRecording w' = isRecording w /\
  intervals w' = intervals w /\
  recorders w' = recorders w /\
  stopTasks w' = stopTasks w /\
  audioBlob w' = audioBlob w /\
  timerRef w' = timerRef w.
Proof.
  intros w Hid w'. subst w' w.
  rewrite (interval_fired_only_sets_time events id c Hid).
  split; [|repeat split].
  destruct (stale_run events) as [Hstale _]. exact (Hstale id c Hid).
Qed.

Lemma tick_changes_time_only_witness :
  let w := run [call_startRecording; granted] initial in
  let w' := step w (interval_fired 2) in
  closure_isRecording (mkClosure false) = false /\
  recordingTime w' = nextTime (recordingTime w) /\
  isRecording w' = isRecording w /\
  intervals w' = intervals w /\
  recorders w' = recorders w /\
  stopTasks w' = stopTasks w /\
  audioBlob w' = audioBlob w /\
  timerRef w' = timerRef w.
Proof.
  apply (tick_changes_time_only [call_startRecording; granted] 2 (mkClosure false)).
  vm_compute. reflexivity.
Defined.

(** ** The microphone is granted *)

Lemma MediaRecorder_start_found (id : nat) (r : MediaRecorder) (w : World) :
  recorders w !! id = Some r ->
  MediaRecorder_start id w
  = set_recorders (<[id := mkRecorder recording (stream r)]> (recorders w)) w.
Proof. intros H. unfold MediaRecorder_start. rewrite H. reflexivity. Qed.

(** The state in which the handler of a granted request returns, before
    the render. *)
Lemma granted_handled (w : World) (i : nat) (c : Closure) (s : MediaStream) :
  requests w !! i = Some c ->
  let h := handle (getUserMedia_settled i (completed s)) w in
  isRecording h = true /\ recordingTime h = 0 /\
  audioBlob h = None /\ audioUrl h = None /\ error h = None /\
  isPlaying h = isPlaying w /\ chunksRef h = chunksRef w /\
  audioPlayerRef h = audioPlayerRef w /\
  mediaRecorderRef h = Some (nextId w) /\
  timerRef h = Some (S (nextId w)) /\
  recorders h = <[nextId w := mkRecorder recording s]>
                  (<[nextId w := mkRecorder inactive s]> (recorders w)) /\
  intervals h = <[S (nextId w) := c]> (intervals w) /\
  requests h = delete i (requests w) /\
  stopTasks h = stopTasks w /\
  revokedURLs h = revokedURLs w /\
  getUserMediaCalls h = getUserMediaCalls w.
Proof.
  intros Hreq h. subst h. unfold handle, startRecording_resume. rewrite Hreq.
  unfold startRecording_initialized, initializeRecorder_completed, toast.
  cbv zeta.
  cbn [mediaRecorderRef setIsRecording setAudioUrl setAudioBlob setRecordingTime
       setError set_mediaRecorderRef set_recorders set_nextId set_requests].
  rewrite (MediaRecorder_start_found (nextId w) (mkRecorder inactive s))
    by (cbn [recorders]; apply lookup_insert_eq).
  repeat split.
Qed.

(** X9.  When the microphone is granted to a pending [startRecording] and
    no sample is stored ([audioUrl] is null), the hook is recording: the
    elapsed time is 0, sample and error are cleared, a new recorder on the
    granted stream is in state [recording] and in [mediaRecorderRef], and a
    new timer with the closure of the call is running and in [timerRef]. *)
Theorem granted_starts_recording
    (w : World) (i : nat) (c : Closure) (s : MediaStream) :
  requests w !! i = Some c ->
  audioUrl w = None ->
  let w' := step w (getUserMedia_settled i (completed s)) in
  session w' = Recording /\ recordingTime w' = 0 /\
  audioBlob w' = None /\ audioUrl w' = None /\ error w' = None /\
  mediaRecorderRef w' = Some (nextId w) /\
  recorders w' !! nextId w = Some (mkRecorder recording s) /\
  timerRef w' = Some (S (nextId w)) /\
  intervals w' !! S (nextId w) = Some c /\
  requests w' = delete i (requests w) /\
  chunksRef w' = chunksRef w.
Proof.
  intros Hreq Hurl w'.
  destruct (granted_handled w i c s Hreq)
    as (H1&H2&H3&H4&H5&H6&H7&H8&H9&H10&H11&H12&H13&H14&H15&H16).
  assert (Hstep : w' = handle (getUserMedia_settled i (completed s)) w).
  { apply step_same_audioUrl. congruence. }
  rewrite Hstep. unfold session. rewrite H1, H11, H12, !lookup_insert_eq.
  repeat split; assumption.
Qed.

Lemma granted_starts_recording_witness :
  let w := run [call_startRecording] initial in
  let w' := step w (getUserMedia_settled 0 (completed [live; live])) in
  session w' = Recording /\ recordingTime w' = 0 /\
  audioBlob w' = None /\ audioUrl w' = None /\ error w' = None /\
  mediaRecorderRef w' = Some (nextId w) /\
  recorders w' !! nextId w = Some (mkRecorder recording [live; live]) /\
  timerRef w' = Some (S (nextId w)) /\
  intervals w' !! S (nextId w) = Some (mkClosure false) /\
  requests w' = delete 0%nat (requests w) /\
  chunksRef w' = chunksRef w.
Proof.
  apply (granted_starts_recording (run [call_startRecording] initial) 0
           (mkClosure false) [live; live]); reflexivity.
Defined.

(** The clean-up, when the timer of [timerRef] runs and the recorder of
    [mediaRecorderRef] records: both are stopped. *)
Lemma cleanup_stops_current
    (h : World) (url : nat) (id t : nat) (r : MediaRecorder) :
  timerRef h = Some (S t) ->
  mediaRecorderRef h = Some id ->
  recorders h !! id = Some r ->
  state r = recording ->
  let w' := cleanup (Some url) h in
  recorders w' = <[id := mkRecorder inactive (stream r)]> (recorders h) /\
  stopTasks w' = stopTasks h ++ [id] /\
  intervals w' = delete (S t) (intervals h) /\
  revokedURLs w' = revokedURLs h ++ [url] /\
  isRecording w' = isRecording h /\
  mediaRecorderRef w' = Some id /\ timerRef w' = Some (S t).
Proof.
  intros Ht Hid Hr Hstate. destruct h. cbn in Ht, Hid, Hr. subst.
  unfold cleanup, currentRecorderState, clearInterval. cbn.
  rewrite Hr. cbn. rewrite Hstate.
  unfold MediaRecorder_stop. cbn. rewrite Hr, Hstate. cbn. repeat split.
Qed.

Lemma playerEffect_revokedURLs (w : World) :
  revokedURLs (playerEffect w) = revokedURLs w.
Proof. unfold playerEffect. destruct (audioPlayerRef w); reflexivity. Qed.

(** X10.  When the microphone is granted while a sample is stored
    ([audioUrl] is not null), the render that follows runs the clean-up of
    the effect on [[audioUrl]], which reads the refs as they are now: it
    clears the timer just started, stops the recorder just started (its stop
    task is queued) and revokes the old URL.  [isRecording] stays true, with
    no timer running and the recorder inactive. *)
Theorem granted_over_sample_is_stopped_at_once
    (w : World) (i : nat) (c : Closure) (s : MediaStream) (url : nat) :
  requests w !! i = Some c ->
  audioUrl w = Some url ->
  let w' := step w (getUserMedia_settled i (completed s)) in
  isRecording w' = true /\ audioUrl w' = None /\ audioBlob w' = None /\
  mediaRecorderRef w' = Some (nextId w) /\
  recorders w' !! nextId w = Some (mkRecorder inactive s) /\
  stopTasks w' = stopTasks w ++ [nextId w] /\
  timerRef w' = Some (S (nextId w)) /\
  intervals w' !! S (nextId w) = None /\
  revokedURLs w' = revokedURLs w ++ [url].
Proof.
  intros Hreq Hurl w'.
  destruct (granted_handled w i c s Hreq)
    as (H1&H2&H3&H4&H5&H6&H7&H8&H9&H10&H11&H12&H13&H14&H15&H16).
  assert (Hstep : w' = playerEffect
                         (cleanup (audioUrl w)
                            (handle (getUserMedia_settled i (completed s)) w))).
  { apply step_new_audioUrl. congruence. }
  rewrite Hurl in Hstep.
  set (h := handle (getUserMedia_settled i (completed s)) w) in *.
  destruct (cleanup_stops_current h url (nextId w) (nextId w)
              (mkRecorder recording s) H10 H9)
    as (C1&C2&C3&C4&C5&C6&C7);
    [rewrite H11; apply lookup_insert_eq | reflexivity |].
  destruct (cleanup_frame (Some url) h) as (F1&F2&F3&F4&_).
  destruct (playerEffect_frame (cleanup (Some url) h))
    as (P1&_&P3&P4&_&_&_&P8&P9&P10&P11&P12&_).
  pose proof (playerEffect_revokedURLs (cleanup (Some url) h)) as Prev.
  rewrite Hstep, P1, P3, P4, P8, P9, P10, P11, P12, Prev.
  rewrite C1, C2, C3, C4, C5, C6, C7, F3, F4, H1, H3, H4, H14, H15.
  rewrite lookup_insert_eq, lookup_delete_eq. repeat split.
Qed.

(** A first recording, stopped by hand, with its sample stored; then the
    page calls [startRecording] again. *)
Definition sampleStored : World :=
  run [call_stopRecording; recorder_stopTask 1 320; call_startRecording] started.

Lemma granted_over_sample_is_stopped_at_once_witness :
  let w' := step sampleStored (getUserMedia_settled 0 (completed [live])) in
  isRecording w' = true /\ audioUrl w' = None /\ audioBlob w' = None /\
  mediaRecorderRef w' = Some (nextId sampleStored) /\
  recorders w' !! nextId sampleStored = Some (mkRecorder inactive [live]) /\
  stopTasks w' = stopTasks sampleStored ++ [nextId sampleStored] /\
  timerRef w' = Some (S (nextId sampleStored)) /\
  intervals w' !! S (nextId sampleStored) = None /\
  revokedURLs w' = revokedURLs sampleStored ++ [0%nat].
Proof.
  apply (granted_over_sample_is_stopped_at_once sampleStored 0
           (mkClosure false) [live] 0); vm_compute; reflexivity.
Defined.

(** ** Reset *)

(** Unfolds the handlers down to the setters. *)
Ltac unfold_handlers :=
  unfold handle, resetRecording, tickUpdater, startRecording_resume,
    startRecording_initialized, initializeRecorder_completed,
    initializeRecorder_caught, startRecording, stopRecording, playAudio,
    ondataavailable, onstop, MediaRecorder_stop, MediaRecorder_start,
    currentRecorderState, clearInterval, toast, handleEnded, handlePause,
    rendered in *.

(** A hook that is recording has created a recorder. *)
Lemma recorder_present_handle (w : World) (e : Event) :
  (isRecording w = true -> is_Some (mediaRecorderRef w)) ->
  isRecording (handle e w) = true -> is_Some (mediaRecorderRef (handle e w)).
Proof.
  destruct w, e; unfold_handlers; cbn; intros Hw;
    repeat case_match; cbn in *; intros Hrec; subst;
    try discriminate; eauto.
Qed.

Lemma recorder_present (events : list Event) :
  isRecording (run events initial) = true ->
  is_Some (mediaRecorderRef (run events initial)).
Proof.
  induction events as [|e events IH] using rev_ind; [discriminate|].
  rewrite run_snoc.
  destruct (step_frame (run events initial) e) as (-> & _ & _ & _ & _ & _ & _ & -> & _).
  apply recorder_present_handle, IH.
Qed.

Lemma playerEffect_no_player (w : World) :
  audioPlayerRef w = None -> audioPlayerRef (playerEffect w) = None.
Proof. intros H. unfold playerEffect. rewrite H. exact H. Qed.

Lemma resetRecording_player (w : World) (player : AudioElement) :
  audioPlayerRef w = Some player ->
  exists player',
    audioPlayerRef (step w call_resetRecording) = Some player' /\
    audio_paused player' = true /\ currentTime player' = 0.
Proof.
  intros Hp.
  assert (Hh : audioPlayerRef (handle call_resetRecording w)
               = Some (mkAudio true 0 (listening player))).
  { unfold handle, resetRecording. cbv zeta.
    assert (Hs : audioPlayerRef (if isRecording w
                                 then stopRecording (mkClosure (isRecording w)) w
                                 else w) = Some player).
    { destruct (isRecording w); [|exact Hp].
      destruct (stopRecording_frame (mkClosure true) w) as (_&_&_&_&_&_&_&_&->&_).
      exact Hp. }
    revert Hs. generalize (if isRecording w
                           then stopRecording (mkClosure (isRecording w)) w else w).
    intros w0 Hs. cbn. rewrite Hs. reflexivity. }
  unfold step. destruct (bool_decide _); [eauto|].
  unfold playerEffect.
  destruct (cleanup_frame (audioUrl w) (handle call_resetRecording w))
    as (_&_&_&_&_&_&_&_&_&->&_).
  rewrite Hh. cbn. eauto.
Qed.

(** X11.  In every state the hook reaches, [resetRecording] returns in the
    [Idle] state: not recording, elapsed time 0, no sample and no object URL,
    no error, not playing; a player that is attached stays attached, paused
    at position 0.  (A recorder stopped by this call still has its stop task
    queued.) *)
Theorem resetRecording_returns_idle (events : list Event) :
  let w := run events initial in
  let w' := step w call_resetRecording in
  session w' = Idle /\
  isRecording w' = false /\ recordingTime w' = 0 /\
  audioBlob w' = None /\ audioUrl w' = None /\
  error w' = None /\ isPlaying w' = false /\
  (forall player, audioPlayerRef w = Some player ->
     exists player', audioPlayerRef w' = Some player' /\
                     audio_paused player' = true /\ currentTime player' = 0) /\
  (audioPlayerRef w = None -> audioPlayerRef w' = None).
Proof.
  intros w w'.
  destruct (resetRecording_returns w (recorder_present events))
    as (H1&H2&H3&H4&H5&H6&H7).
  repeat (split; [assumption|]). split.
  - apply resetRecording_player.
  - intros Hnone. subst w'.
    assert (Hh : audioPlayerRef (handle call_resetRecording w) = None).
    { unfold handle, resetRecording. cbv zeta.
      assert (Hs : audioPlayerRef (if isRecording w
                                   then stopRecording (mkClosure (isRecording w)) w
                                   else w) = None).
      { destruct (isRecording w); [|exact Hnone].
        destruct (stopRecording_frame (mkClosure true) w) as (_&_&_&_&_&_&_&_&->&_).
        exact Hnone. }
      revert Hs. generalize (if isRecording w
                             then stopRecording (mkClosure (isRecording w)) w else w).
      intros w0 Hs. cbn. rewrite Hs. exact Hs. }
    unfold step. destruct (bool_decide _); [exact Hh|].
    apply playerEffect_no_player.
    destruct (cleanup_frame (audioUrl w) (handle call_resetRecording w))
      as (_&_&_&_&_&_&_&_&_&Hc&_).
    rewrite Hc. exact Hh.
Qed.

(** ** Buffering *)

(** X12.  While a recorder records, its [dataavailable] events put their
    data into [chunksRef] in the order they come, leaving out the data of
    size 0; they change nothing else of the hook's state. *)
Theorem dataavailable_buffers
    (w : World) (id : nat) (r : MediaRecorder) (datas : list Z) :
  recorders w !! id = Some r ->
  state r = recording ->
  let w' := run (map (recorder_dataavailable id) datas) w in
  w' = set_chunksRef (chunksRef w ++ filter (fun d => 0 < d)%Z datas) w.
Proof.
  intros Hr Hstate. cbv zeta. revert w Hr.
  induction datas as [|d datas IH]; intros w Hr.
  - cbn. rewrite app_nil_r. destruct w. reflexivity.
  - cbn [map run fold_left].
    assert (Hstep : step w (recorder_dataavailable id d)
                    = set_chunksRef (chunksRef w ++ filter (fun d => 0 < d)%Z [d]) w).
    { assert (Hh : handle (recorder_dataavailable id d) w
                   = set_chunksRef (chunksRef w ++ filter (fun d => 0 < d)%Z [d]) w).
      { unfold handle. rewrite Hr, Hstate. unfold ondataavailable.
        rewrite filter_cons, filter_nil.
        destruct (Z.ltb_spec 0 d) as [Hd | Hd];
          destruct (decide (0 < d)%Z) as [Hd' | Hd']; try lia; [reflexivity|].
        rewrite app_nil_r. destruct w. reflexivity. }
      rewrite step_same_audioUrl; rewrite Hh; reflexivity. }
    rewrite Hstep. fold (run (map (recorder_dataavailable id) datas)
                             (set_chunksRef (chunksRef w ++ filter (fun d => 0 < d)%Z [d]) w)).
    rewrite IH by exact Hr. cbn [chunksRef set_chunksRef].
    rewrite (filter_cons _ d datas), filter_cons, filter_nil.
    destruct (decide (0 < d)%Z); cbn [app]; rewrite <- ?app_assoc, ?app_nil_r;
      destruct w; reflexivity.
Qed.

Lemma dataavailable_buffers_witness :
  run (map (recorder_dataavailable 1) [640; 0; 320]%Z) started
  = set_chunksRef (chunksRef started ++ [640; 320]%Z) started.
Proof.
  apply (dataavailable_buffers started 1 (mkRecorder recording [live])
           [640; 0; 320]%Z); vm_compute; reflexivity.
Defined.

(** ** Playback *)

(** X13.  With a sample and a player, two calls of [playAudio] in a row
    bring [isPlaying] back to what it was and leave the element playing
    exactly when [isPlaying] is true; nothing else changes.  With no player
    attached [playAudio] does nothing, sample or not. *)
Theorem playAudio_twice (w : World) :
  (forall url player,
      audioUrl w = Some url ->
      audioPlayerRef w = Some player ->
      step (step w call_playAudio) call_playAudio
      = set_audioPlayerRef
          (Some (mkAudio (negb (isPlaying w)) (currentTime player)
                         (listening player))) w) /\
  (audioPlayerRef w = None -> step w call_playAudio = w).
Proof.
  split.
  - intros url player Hurl Hp.
    set (once := set_audioPlayerRef
                   (Some (mkAudio (isPlaying w) (currentTime player) (listening player)))
                   (setIsPlaying (negb (isPlaying w)) w)).
    assert (H1 : step w call_playAudio = once).
    { assert (Hh : handle call_playAudio w = once).
      { unfold handle, playAudio, once. rewrite Hurl, Hp.
        destruct (isPlaying w); reflexivity. }
      rewrite step_same_audioUrl; rewrite Hh; reflexivity. }
    rewrite H1.
    assert (Hh : handle call_playAudio once
                 = set_audioPlayerRef
                     (Some (mkAudio (negb (isPlaying w)) (currentTime player)
                                    (listening player))) w).
    { unfold handle, playAudio, once. cbn. rewrite Hurl.
      destruct w. cbn in *. destruct isRecording0, isPlaying0; reflexivity. }
    rewrite step_same_audioUrl; rewrite Hh; reflexivity.
  - intros Hp.
    assert (Hh : handle call_playAudio w = w).
    { unfold handle, playAudio. rewrite Hp. destruct (audioUrl w); reflexivity. }
    rewrite step_same_audioUrl; rewrite Hh; reflexivity.
Qed.

Lemma playAudio_twice_witness :
  let w := run [player_mounted true; call_startRecording; granted;
                call_stopRecording; recorder_stopTask 1 5] initial in
  step (step w call_playAudio) call_playAudio
  = set_audioPlayerRef (Some (mkAudio true 0 true)) w.
Proof.
  intros w.
  apply (proj1 (playAudio_twice w) 0%nat (mkAudio true 0 true));
    vm_compute; reflexivity.
Defined.

(** ** Two calls of [startRecording] before the microphone is granted *)

Lemma granted_nextId (w : World) (i : nat) (c : Closure) (s : MediaStream) :
  requests w !! i = Some c ->
  nextId (handle (getUserMedia_settled i (completed s)) w) = S (S (nextId w)).
Proof.
  intros Hreq. unfold handle, startRecording_resume. rewrite Hreq.
  unfold startRecording_initialized, initializeRecorder_completed, toast.
  cbv zeta.
  cbn [mediaRecorderRef setIsRecording setAudioUrl setAudioBlob setRecordingTime
       setError set_mediaRecorderRef set_recorders set_nextId set_requests].
  rewrite (MediaRecorder_start_found (nextId w) (mkRecorder inactive s))
    by (cbn [recorders]; apply lookup_insert_eq).
  reflexivity.
Qed.

(** X14.  [startRecording] is guarded by [isRecording] only.  From a hook
    that is not recording, has no request pending and no sample, two calls
    before the microphone is granted make two [getUserMedia] requests; when
    both are granted, two recorders record and two timers run, and the refs
    hold the second of each.  [stopRecording] then stops the second recorder
    and clears the second timer: the first recorder goes on recording and the
    first timer goes on running. *)
Theorem startRecording_twice_leaks
    (w : World) (s1 s2 : MediaStream) :
  isRecording w = false ->
  requests w = [] ->
  audioUrl w = None ->
  let w' := run [call_startRecording; call_startRecording;
                 getUserMedia_settled 0 (completed s1);
                 getUserMedia_settled 0 (completed s2);
                 call_stopRecording] w in
  getUserMediaCalls w' = S (S (getUserMediaCalls w)) /\
  isRecording w' = false /\
  recorders w' !! nextId w = Some (mkRecorder recording s1) /\
  intervals w' !! S (nextId w) = Some (mkClosure false) /\
  recorders w' !! S (S (nextId w)) = Some (mkRecorder inactive s2) /\
  intervals w' !! S (S (S (nextId w))) = None /\
  stopTasks w' = stopTasks w ++ [S (S (nextId w))].
Proof.
  intros Hrec Hreq Hurl. cbv zeta. cbn [run fold_left].
  set (c := mkClosure false).
  set (w2 := set_getUserMediaCalls (S (S (getUserMediaCalls w)))
               (set_requests [c; c] w)).
  assert (H2 : step (step w call_startRecording) call_startRecording = w2).
  { assert (Ha : step w call_startRecording
                 = set_getUserMediaCalls (S (getUserMediaCalls w))
                     (set_requests [c] w)).
    { assert (Hh : handle call_startRecording w
                   = set_getUserMediaCalls (S (getUserMediaCalls w))
                       (set_requests [c] w)).
      { unfold handle, startRecording, rendered. cbn. rewrite Hrec, Hreq. reflexivity. }
      rewrite step_same_audioUrl; rewrite Hh; reflexivity. }
    rewrite Ha.
    assert (Hh : handle call_startRecording
                   (set_getUserMediaCalls (S (getUserMediaCalls w)) (set_requests [c] w))
                 = w2).
    { unfold handle, startRecording, rendered. cbn. rewrite Hrec. reflexivity. }
    rewrite step_same_audioUrl; rewrite Hh; reflexivity. }
  rewrite H2.
  (* the first grant *)
  assert (Hreq2 : requests w2 !! 0%nat = Some c) by reflexivity.
  destruct (granted_handled w2 0 c s1 Hreq2)
    as (A1&_&_&A4&_&_&_&_&A9&A10&A11&A12&A13&A14&_&A16).
  pose proof (granted_nextId w2 0 c s1 Hreq2) as A17.
  assert (H3 : step w2 (getUserMedia_settled 0 (completed s1))
               = handle (getUserMedia_settled 0 (completed s1)) w2).
  { apply step_same_audioUrl. rewrite A4. symmetry. exact Hurl. }
  rewrite H3. set (w3 := handle (getUserMedia_settled 0 (completed s1)) w2) in *.
  (* the second grant *)
  assert (Hreq3 : requests w3 !! 0%nat = Some c) by (rewrite A13; reflexivity).
  destruct (granted_handled w3 0 c s2 Hreq3)
    as (B1&_&_&B4&_&_&_&_&B9&B10&B11&B12&_&B14&_&B16).
  assert (H4 : step w3 (getUserMedia_settled 0 (completed s2))
               = handle (getUserMedia_settled 0 (completed s2)) w3).
  { apply step_same_audioUrl. rewrite B4. symmetry. exact A4. }
  rewrite H4. set (w4 := handle (getUserMedia_settled 0 (completed s2)) w3) in *.
  change (nextId w2) with (nextId w) in *.
  rewrite A17 in B9, B10, B11, B12.
  (* the stop *)
  assert (Hr4 : recorders w4 !! S (S (nextId w)) = Some (mkRecorder recording s2))
    by (rewrite B11; apply lookup_insert_eq).
  rewrite (stopRecording_recording w4 (S (S (nextId w))) (mkRecorder recording s2)
             B1 B9 Hr4 eq_refl).
  unfold toast, clearInterval.
  cbn [getUserMediaCalls isRecording recorders intervals stopTasks timerRef
       set_toasts set_stopTasks set_recorders set_intervals setIsRecording stream].
  rewrite B10, B11, B12, B14, B16, A11, A12, A14, A16.
  split; [reflexivity|]. split; [reflexivity|].
  split.
  { rewrite !lookup_insert_ne by lia. apply lookup_insert_eq. }
  split.
  { rewrite lookup_delete_ne by lia. rewrite lookup_insert_ne by lia.
    apply lookup_insert_eq. }
  split; [apply lookup_insert_eq|].
  split; [apply lookup_delete_eq | reflexivity].
Qed.

Lemma startRecording_twice_leaks_witness :
  let w' := run [call_startRecording; call_startRecording;
                 getUserMedia_settled 0 (completed [live]);
                 getUserMedia_settled 0 (completed [live; live]);
                 call_stopRecording] initial in
  getUserMediaCalls w' = S (S (getUserMediaCalls initial)) /\
  isRecording w' = false /\
  recorders w' !! nextId initial = Some (mkRecorder recording [live]) /\
  intervals w' !! S (nextId initial) = Some (mkClosure false) /\
  recorders w' !! S (S (nextId initial)) = Some (mkRecorder inactive [live; live]) /\
  intervals w' !! S (S (S (nextId initial))) = None /\
  stopTasks w' = stopTasks initial ++ [S (S (nextId initial))].
Proof.
  apply (startRecording_twice_leaks initial [live] [live; live]); reflexivity.
Defined.

(** ** The clean-up *)

(** X15.  After the clean-up of the effect (which also runs on unmount) the
    timer of [timerRef] no longer runs and the recorder of [mediaRecorderRef]
    is not recording; the hook's state cells are untouched. *)
Theorem cleanup_releases (old : option nat) (w : World) :
  let w' := cleanup old w in
  (forall t, timerRef w = Some (S t) -> intervals w' !! S t = None) /\
  currentRecorderState w' <> Some recording /\
  isRecording w' = isRecording w /\ recordingTime w' = recordingTime w /\
  audioBlob w' = audioBlob w /\ audioUrl w' = audioUrl w /\
  revokedURLs w' = revokedURLs w ++ match old with
                                    | Some url => [url]
                                    | None => []
                                    end.
Proof.
  destruct w. unfold cleanup, currentRecorderState, clearInterval, MediaRecorder_stop.
  cbn. split; [|split].
  - intros t ->. cbn. repeat case_match; cbn; apply lookup_delete_eq.
  - repeat case_match; simplify_eq/=; rewrite ?lookup_insert_eq; cbn;
      try congruence; repeat case_match; simplify_eq/=; congruence.
  - repeat case_match; cbn; rewrite ?app_nil_r; repeat split.
Qed.

End AudioRecorderMore.

(* ===================================================================== *)
(** * Results on the progress bar                                         *)
(* ===================================================================== *)

Module AudioComponentsFacts.
Import AudioComponents.

(** ** Signs in the specification of binary64 *)

(** A number that is not [NaN] and not below zero; both zeros count. *)
Definition nonneg (x : spec_float) : Prop :=
  match x with
  | S754_zero _ => True
  | S754_infinity s | S754_finite s _ _ => s = false
  | S754_nan => False
  end.

Lemma nonneg_leb (x : spec_float) :
  SFleb (S754_zero false) x = true <-> nonneg x.
Proof.
  destruct x as [s | s | | s m e]; try destruct s; simpl;
    unfold SFleb; simpl; intuition congruence.
Qed.

Lemma shr_1_nonneg (mrs : shr_record) :
  (0 <= shr_m mrs)%Z -> (0 <= shr_m (shr_1 mrs))%Z.
Proof.
  destruct mrs as [m r s]. destruct m as [|p|p]; simpl; intros H;
    try destruct p; simpl; lia.
Qed.

Lemma iter_shr_1_nonneg (p : positive) (mrs : shr_record) :
  (0 <= shr_m mrs)%Z -> (0 <= shr_m (SpecFloat.iter_pos shr_1 p mrs))%Z.
Proof.
  revert mrs. induction p as [p IH | p IH |]; intros mrs H; simpl.
  - apply IH, IH, shr_1_nonneg, H.
  - apply IH, IH, H.
  - apply shr_1_nonneg, H.
Qed.

Lemma shr_fexp_nonneg (m e : Z) (l : location) :
  (0 <= m)%Z -> (0 <= shr_m (fst (shr_fexp prec emax m e l)))%Z.
Proof.
  intros H. unfold shr_fexp, shr.
  assert (H0 : (0 <= shr_m (shr_record_of_loc m l))%Z).
  { destruct l as [|[]]; exact H. }
  destruct (_ - e)%Z; simpl; try exact H0. apply iter_shr_1_nonneg, H0.
Qed.

Lemma round_nearest_even_nonneg (m : Z) (l : location) :
  (0 <= m)%Z -> (0 <= round_nearest_even m l)%Z.
Proof.
  intros H. unfold round_nearest_even. destruct l as [|[]]; try lia.
  destruct (Z.even m); lia.
Qed.

(** Rounding a mantissa that is not negative, with the sign bit clear,
    gives a number that is not negative. *)
Lemma binary_round_aux_nonneg (m e : Z) (l : location) :
  (0 <= m)%Z -> nonneg (binary_round_aux prec emax false m e l).
Proof.
  intros H. unfold binary_round_aux.
  pose proof (shr_fexp_nonneg m e l H) as H1.
  destruct (shr_fexp prec emax m e l) as [mrs' e']. simpl in H1.
  pose proof (shr_fexp_nonneg _ e' loc_Exact
                (round_nearest_even_nonneg _ (loc_of_shr_record mrs') H1)) as H2.
  destruct (shr_fexp prec emax _ e' loc_Exact) as [mrs'' e'']. simpl in H2.
  destruct (shr_m mrs'') as [|p|p]; simpl; [exact I | | lia].
  destruct (_ <=? _)%Z; reflexivity.
Qed.

Lemma SFdiv_core_binary_nonneg (m1 m2 : positive) (e1 e2 : Z) :
  (0 <= fst (fst (SFdiv_core_binary prec emax (Zpos m1) e1 (Zpos m2) e2)))%Z.
Proof.
  unfold SFdiv_core_binary.
  set (s := (_ - _ - _)%Z).
  set (m' := match s with
             | Zpos _ => Z.shiftl (Zpos m1) s
             | Z0 => Zpos m1
             | Zneg _ => 0%Z
             end).
  assert (Hm' : (0 <= m')%Z).
  { subst m'. destruct s; try lia. apply Z.shiftl_nonneg. lia. }
  pose proof (Z.div_pos m' (Zpos m2) Hm' eq_refl) as Hq.
  unfold Z.div in Hq. destruct (Z.div_eucl m' (Zpos m2)) as [q r]. exact Hq.
Qed.

Lemma SFdiv_nonneg (x : spec_float) (m : positive) (e : Z) :
  nonneg x -> nonneg (SFdiv prec emax x (S754_finite false m e)).
Proof.
  destruct x as [s | s | | s mx ex]; simpl; intros H; try exact H.
  - subst s. reflexivity.
  - subst s. simpl.
    pose proof (SFdiv_core_binary_nonneg mx m ex e) as Hq.
    destruct (SFdiv_core_binary prec emax (Zpos mx) ex (Zpos m) e) as [[q e'] l].
    apply binary_round_aux_nonneg, Hq.
Qed.

Lemma SFmul_nonneg (x : spec_float) (m : positive) (e : Z) :
  nonneg x -> nonneg (SFmul prec emax x (S754_finite false m e)).
Proof.
  destruct x as [s | s | | s mx ex]; simpl; intros H; try exact H.
  - subst s. reflexivity.
  - subst s. simpl. apply binary_round_aux_nonneg. lia.
Qed.

(** ** Comparisons with a positive finite number *)

Lemma nonneg_not_nan (x : spec_float) : nonneg x -> SFeqb x x = true.
Proof.
  destruct x as [s | s | | s m e]; simpl; intros H; try contradiction;
    unfold SFeqb; simpl; try (destruct s; reflexivity).
  subst s. rewrite Z.compare_refl, Pos.compare_cont_refl. reflexivity.
Qed.

(** With [x] not negative and [h] finite and positive: if neither is
    below the other they are the same number. *)
Lemma SFcompare_neither (x : spec_float) (m : positive) (e : Z) :
  nonneg x ->
  SFltb x (S754_finite false m e) = false ->
  SFltb (S754_finite false m e) x = false ->
  x = S754_finite false m e.
Proof.
  destruct x as [s | s | | s mx ex]; simpl; intros H; try contradiction;
    unfold SFltb; simpl; try discriminate.
  - subst s. discriminate.
  - subst s.
    destruct (Z.compare_spec ex e) as [-> | Hlt | Hgt].
    + rewrite Z.compare_refl.
      change (Pos.compare_cont Eq mx m) with (Pos.compare mx m).
      change (Pos.compare_cont Eq m mx) with (Pos.compare m mx).
      rewrite (Pos.compare_antisym mx m).
      destruct (Pos.compare mx m) eqn:Hc; try discriminate.
      apply Pos.compare_eq in Hc. subst. reflexivity.
    + discriminate.
    + intros _. rewrite (proj2 (Z.compare_lt_iff e ex)) by lia. discriminate.
Qed.

Local Open Scope float_scope.

(** ** The width of the bar *)

(** [x] cut off to the interval from 0 to 1. *)
Definition clamp01 (x : float) : float :=
  if x <? 0 then 0 else if 1 <? x then 1 else x.

(** C9 as stated fails: for an elapsed time of -1 the width is below 0
    (it is -33.33...), where the ratio cut off to [0, 1] gives 0.  The code
    only ever applies [Math.min]. *)
Lemma progressWidth_negative_elapsed :
  (progressWidth (-1) maxTime_default <? 0) = true /\
  (0 <=? progressWidth (-1) maxTime_default) = false /\
  clamp01 (-1 / maxTime_default) * 100 = 0.
Proof. repeat split; vm_compute; reflexivity. Qed.

Lemma progress_nonneg (t : float) :
  (0 <=? t) = true -> nonneg (Prim2SF (progress t maxTime_default)).
Proof.
  intros H. rewrite FloatAxioms.leb_spec in H.
  change (Prim2SF 0) with (S754_zero false) in H. apply nonneg_leb in H.
  unfold progress. rewrite FloatAxioms.mul_spec, FloatAxioms.div_spec.
  change (Prim2SF 100) with (S754_finite false 7036874417766400 (-46)).
  change (Prim2SF maxTime_default) with (S754_finite false 6755399441055744 (-51)).
  apply SFmul_nonneg, SFdiv_nonneg, H.
Qed.

(** C9, amended.  For every elapsed time that is not negative (and not
    [NaN]), with [maxTime = 3]: the width lies between 0 and 100, and it is
    the ratio times 100 or else 100.  There is no lower cut-off in the
    code; it is the input that is never negative. *)
Theorem progressWidth_in_range (t : float) :
  (0 <=? t) = true ->
  let width := progressWidth t maxTime_default in
  (0 <=? width) = true /\ (width <=? 100) = true /\
  (width = progress t maxTime_default \/ width = 100).
Proof.
  intros Ht. pose proof (progress_nonneg t Ht) as Ha.
  unfold progressWidth, Math_min.
  set (a := progress t maxTime_default) in *.
  assert (Hnan : is_nan a = false).
  { unfold is_nan. rewrite FloatAxioms.eqb_spec, (nonneg_not_nan _ Ha). reflexivity. }
  assert (H0a : (0 <=? a) = true).
  { rewrite FloatAxioms.leb_spec. change (Prim2SF 0) with (S754_zero false).
    apply nonneg_leb, Ha. }
  rewrite Hnan. change (is_nan 100) with false. cbn [orb].
  destruct (a <? 100) eqn:E1.
  - cbv zeta. split; [exact H0a|]. split; [|left; reflexivity].
    rewrite FloatAxioms.leb_spec. rewrite FloatAxioms.ltb_spec in E1. unfold SFleb, SFltb in *.
    destruct (SFcompare _ _) as [[]|]; congruence.
  - destruct (100 <? a) eqn:E2.
    + cbv zeta. repeat split. right. reflexivity.
    + assert (Heq : a = 100).
      { apply Prim2SF_inj. rewrite FloatAxioms.ltb_spec in E1, E2.
        change (Prim2SF 100) with (S754_finite false 7036874417766400 (-46)) in *.
        apply SFcompare_neither; assumption. }
      rewrite Heq. change (get_sign 100) with false. cbv zeta.
      repeat split. right. reflexivity.
Qed.

Lemma progressWidth_in_range_witness :
  let width := progressWidth 1.5 maxTime_default in
  (0 <=? width) = true /\ (width <=? 100) = true /\
  (width = progress 1.5 maxTime_default \/ width = 100).
Proof. apply progressWidth_in_range. reflexivity. Defined.

(** On the elapsed times the recorder hook produces, the width is the ratio
    cut off to [0, 1], times 100. *)
Lemma progressWidth_of_recordingTime (t : float) :
  In t AudioRecorderFacts.tickValues ->
  progressWidth t maxTime_default = clamp01 (t / maxTime_default) * 100.
Proof.
  unfold AudioRecorderFacts.tickValues. intros H.
  repeat (destruct H as [<- | H]; [vm_compute; reflexivity | ]).
  destruct H.
Qed.

End AudioComponentsFacts.

(* ===================================================================== *)
(** * The progress bar on the hook's elapsed time                         *)
(* ===================================================================== *)

Module AudioComponentsMore.
Import AudioRecorder AudioRecorderFacts AudioComponents AudioComponentsFacts.
Local Open Scope float_scope.

Lemma progressWidth_tickValues (t : float) :
  In t tickValues ->
  progressWidth t maxTime_default = clamp01 (t / maxTime_default) * 100 /\
  (0 <=? progressWidth t maxTime_default) = true /\
  (progressWidth t maxTime_default <=? 100) = true /\
  (progressWidth t maxTime_default = 100 <-> t = 3).
Proof.
  unfold tickValues. intros H.
  repeat (destruct H as [<- | H];
          [vm_compute;
           split; [reflexivity|]; split; [reflexivity|]; split; [reflexivity|];
           split; intros E;
           first [ reflexivity
                 | apply (f_equal (fun x => x <? 100)) in E; vm_compute in E;
                   discriminate E
                 | apply (f_equal (fun x => x <? 3)) in E; vm_compute in E;
                   discriminate E ] | ]).
  destruct H.
Qed.

(** X16.  For the elapsed time of every state the recorder hook reaches,
    the bar drawn by [AudioVisualizer] with [maxTime = 3] has as its width
    the ratio elapsed / 3 cut off to [0, 1], times 100; the width lies
    between 0 and 100, and it is 100 exactly when the elapsed time is 3.0. *)
Theorem progressWidth_of_hook_time (events : list Event) :
  let t := recordingTime (run events initial) in
  progressWidth t maxTime_default = clamp01 (t / maxTime_default) * 100 /\
  (0 <=? progressWidth t maxTime_default) = true /\
  (progressWidth t maxTime_default <=? 100) = true /\
  (progressWidth t maxTime_default = 100 <-> t = 3).
Proof. apply progressWidth_tickValues, recordingTime_tickValues. Qed.

End AudioComponentsMore.
